(** * Stemmer: the .NET wrapper around the Porter stemming routine

  [Stemmer::StemWord] (Stemmer.cpp) marshals a managed string into an
  unmanaged ANSI buffer, creates a native stemmer context, lets the native
  routine [stem] work in place on the buffer, and returns the prefix of the
  managed word whose length the native routine reported.  Buffer and
  context are released in a [finally] block.

  The development has four parts:
  - [Porter]: the stemming algorithm behind the native routine;
  - the wrapper, written over a small program monad whose operations are
    the calls that touch unmanaged memory, with a sequential and an
    interleaved semantics;
  - the properties of a call of [StemWord] on its own;
  - the properties of calls of [StemWord] in progress side by side. *)

From Stdlib Require Import ZArith List Bool Lia.
From Stdlib Require Import Strings.Byte Strings.Ascii Strings.String.
From stdpp Require Import gmap.
Import ListNotations.

Local Open Scope Z_scope.
#[local] Set Warnings "-clear-no-such-hyp".

(** The bytes of a literal, as the native code sees a C string (without the
  terminator). *)
Definition bytes (s : string) : list byte := list_byte_of_string s.

(** * The stemming algorithm *)

(** The native stemmer ([create_stemmer], [stem], [free_stemmer]) is only
    declared in Stemmer.cpp.  Everything in this module stands for it and
    follows the description of the algorithm in the specification: a word
    is a list of bytes, a stem is the part of the word before a suffix, and
    the boundary index of the description is the length of that part. *)
Module Porter.

Local Open Scope nat_scope.
Local Open Scope byte_scope.

(** ** Character classifiers *)

(** Modelled from the spec: the vowels a, e, i, o, u of the native
    classifier. *)
Definition is_aeiou (c : byte) : bool :=
  match c with
  | "a" | "e" | "i" | "o" | "u" => true
  | _ => false
  end.

(** Modelled from the spec: [isConsonant] of the native stemmer.  A
    character is a consonant when it is none of a, e, i, o, u; a "y" is a
    consonant unless the character before it is a vowel (in the sense of
    this classifier), and a leading "y" is a consonant.  A position past
    the end of the buffer reads as the terminator. *)
Fixpoint isConsonant (buffer : list byte) (index : nat) : bool :=
  let c := nth index buffer "000" in
  if is_aeiou c then false
  else if Byte.eqb c "y" then
    match index with
    | O => true
    | S before => isConsonant buffer before
    end
  else true.

(** Modelled from the spec: the first pass of [measure], the class of each
    character of the stem ([true] for a consonant). *)
Definition classify (stem : list byte) : list bool :=
  map (isConsonant stem) (seq 0 (length stem)).

(** Modelled from the spec: the second pass of [measure], runs of equal
    classes collapsed to one entry. *)
Fixpoint collapse (cs : list bool) : list bool :=
  match cs with
  | a :: ((b :: _) as rest) =>
      if Bool.eqb a b then collapse rest else a :: collapse rest
  | _ => cs
  end.

(** Modelled from the spec: the last pass of [measure], the number of
    vowel-run-to-consonant-run transitions. *)
Fixpoint count_vc (runs : list bool) : nat :=
  match runs with
  | false :: ((true :: _) as rest) => S (count_vc rest)
  | _ :: rest => count_vc rest
  | [] => 0
  end.

(** Modelled from the spec: [measure] of the native stemmer.  The stem is
    the prefix of the buffer up to the boundary index; it is handed over
    as a list of its own, so the bound is its length.  The stem has the
    shape [C](VC){m}[V] and the result is m. *)
Definition measure (stem : list byte) : nat :=
  count_vc (collapse (classify stem)).

(** Modelled from the spec: the test of steps 1b and 1c of the native
    stemmer that a stem "contains at least one vowel". *)
Definition containsVowel (stem : list byte) : bool :=
  existsb (fun i => negb (isConsonant stem i)) (seq 0 (length stem)).

(** Modelled from the spec: [doubleConsonant] of the native stemmer, the
    characters at [index - 1] and [index] are the same consonant. *)
Definition doubleConsonant (buffer : list byte) (index : nat) : bool :=
  (1 <=? index)
  && Byte.eqb (nth (index - 1) buffer "000") (nth index buffer "000")
  && isConsonant buffer index.

(** Modelled from the spec: [cvcRule] of the native stemmer, the three
    characters ending at [index] are consonant, vowel, consonant, and the
    last one is none of w, x, y. *)
Definition cvcRule (buffer : list byte) (index : nat) : bool :=
  (2 <=? index)
  && isConsonant buffer index
  && negb (isConsonant buffer (index - 1))
  && isConsonant buffer (index - 2)
  && negb (match nth index buffer "000" with
           | "w" | "x" | "y" => true
           | _ => false
           end).

(** Modelled from the spec: the index at which the native stemmer applies
    [doubleConsonant] and [cvcRule], that of the last character. *)
Definition last_index (buffer : list byte) : nat := length buffer - 1.

(** ** Suffix matching *)

(** Modelled from the spec: the comparison of the tail of the buffer with
    a suffix, byte by byte. *)
Fixpoint bytes_eqb (a b : list byte) : bool :=
  match a, b with
  | [], [] => true
  | x :: a', y :: b' => Byte.eqb x y && bytes_eqb a' b'
  | _, _ => false
  end.

(** Modelled from the spec: the suffix match of the native stemmer.
    [ends w suffix] is the stem before [suffix] when [w] ends with it. *)
Definition ends (w suffix : list byte) : option (list byte) :=
  let n := length w - length suffix in
  if (length suffix <=? length w) && bytes_eqb (skipn n w) suffix
  then Some (firstn n w)
  else None.

(** Modelled from the spec: a suffix rule of the native tables is a
    suffix, its replacement, the least measure of the stem before the
    suffix for which the rule fires, and an optional further test on that
    stem. *)
Record SuffixRule := {
  suffix_string : list byte;
  replacement_string : list byte;
  minimum_measure : nat;
  extra_predicate : list byte -> bool
}.

(** A rule without a further test. *)
Definition rule (suffix replacement : string) (m : nat) : SuffixRule :=
  {| suffix_string := bytes suffix;
     replacement_string := bytes replacement;
     minimum_measure := m;
     extra_predicate := fun _ => true |}.

(** Modelled from the spec: how the native stemmer goes through a table.
    The rules are tried in order; the first whose suffix matches decides:
    it rewrites the word when its gate holds and leaves the word alone
    otherwise.  No later rule is tried. *)
Fixpoint apply_rules (table : list SuffixRule) (w : list byte) : list byte :=
  match table with
  | [] => w
  | r :: rest =>
      match ends w (suffix_string r) with
      | Some stem =>
          if (minimum_measure r <=? measure stem) && extra_predicate r stem
          then stem ++ replacement_string r
          else w
      | None => apply_rules rest w
      end
  end.

(** A table whose replacements are no longer than the suffixes they stand
    for. *)
Definition shrinking (table : list SuffixRule) : bool :=
  forallb (fun r => length (replacement_string r) <=? length (suffix_string r))
          table.

(** ** Step 1: plurals and past participles *)

(** Modelled from the spec: the rules of step 1a of the native stemmer,
    "sses" to "ss", "ies" to "i", "ss" kept (so that the bare "s" rule is
    not reached), "s" dropped. *)
Definition step1a_rules : list SuffixRule :=
  [ rule "sses" "ss" 0; rule "ies" "i" 0; rule "ss" "ss" 0; rule "s" "" 0 ].

(** Modelled from the spec: step 1a of the native stemmer. *)
Definition step1a (w : list byte) : list byte := apply_rules step1a_rules w.

(** Modelled from the spec: step 1b1 of the native stemmer, the cleanup
    after "ed" or "ing" was stripped.  A stem in "at", "bl" or "iz" gets an
    "e"; else a doubled final consonant other than l, s, z loses one
    letter; else a stem of measure 1 that ends consonant-vowel-consonant
    gets an "e". *)
Definition step1b1 (stem : list byte) : list byte :=
  if existsb (fun s => bool_decide (is_Some (ends stem (bytes s))))
             ["at"; "bl"; "iz"]%string
  then stem ++ bytes "e"
  else if doubleConsonant stem (last_index stem)
          && negb (match nth (last_index stem) stem "000" with
                   | "l" | "s" | "z" => true
                   | _ => false
                   end)
  then removelast stem
  else if Nat.eqb (measure stem) 1 && cvcRule stem (last_index stem)
  then stem ++ bytes "e"
  else stem.

(** Modelled from the spec: step 1b of the native stemmer.  "eed" becomes
    "ee" when the stem before it has a positive measure, and is left alone
    otherwise; "ed" and "ing" are removed when the stem before them
    contains a vowel, and the cleanup runs. *)
Definition step1b (w : list byte) : list byte :=
  match ends w (bytes "eed") with
  | Some stem => if 0 <? measure stem then stem ++ bytes "ee" else w
  | None =>
      match ends w (bytes "ed"), ends w (bytes "ing") with
      | Some stem, _ | None, Some stem =>
          if containsVowel stem then step1b1 stem else w
      | None, None => w
      end
  end.

(** Modelled from the spec: step 1c of the native stemmer, a final "y"
    becomes "i" when the stem before it contains a vowel. *)
Definition step1c (w : list byte) : list byte :=
  match ends w (bytes "y") with
  | Some stem => if containsVowel stem then stem ++ bytes "i" else w
  | None => w
  end.

(** Modelled from the spec: step 1 of the native stemmer, its three
    sub-steps in order. *)
Definition step1 (w : list byte) : list byte := step1c (step1b (step1a w)).

(** ** Steps 2 to 4: the suffix tables *)

(** Modelled from the spec: the table of step 2 of the native stemmer.
    The spec names "ational", "tional",
    "enci", "anci", "izer" and "logi" of its about twenty entries and
    leaves the others out; they are those of the classic table, in its
    order.  Every rule needs a positive measure. *)
Definition step2_rules : list SuffixRule :=
  [ rule "ational" "ate" 1; rule "tional" "tion" 1;
    rule "enci" "ence" 1; rule "anci" "ance" 1;
    rule "izer" "ize" 1;
    rule "bli" "ble" 1; rule "alli" "al" 1; rule "entli" "ent" 1;
    rule "eli" "e" 1; rule "ousli" "ous" 1;
    rule "ization" "ize" 1; rule "ation" "ate" 1; rule "ator" "ate" 1;
    rule "alism" "al" 1; rule "iveness" "ive" 1; rule "fulness" "ful" 1;
    rule "ousness" "ous" 1;
    rule "aliti" "al" 1; rule "iviti" "ive" 1; rule "biliti" "ble" 1;
    rule "logi" "log" 1 ].

(** Modelled from the spec: step 2 of the native stemmer. *)
Definition step2 (w : list byte) : list byte := apply_rules step2_rules w.

(** Modelled from the spec: the table of step 3 of the native stemmer,
    seven rules, each for a positive measure. *)
Definition step3_rules : list SuffixRule :=
  [ rule "icate" "ic" 1; rule "ative" "" 1; rule "alize" "al" 1;
    rule "iciti" "ic" 1; rule "ical" "ic" 1; rule "ful" "" 1;
    rule "ness" "" 1 ].

(** Modelled from the spec: step 3 of the native stemmer. *)
Definition step3 (w : list byte) : list byte := apply_rules step3_rules w.

(** Modelled from the spec: the further test of the "ion" rule of step 4,
    the stem before it must end in "s" or "t". *)
Definition after_s_or_t (stem : list byte) : bool :=
  (1 <=? length stem)
  && match nth (last_index stem) stem "000" with
     | "s" | "t" => true
     | _ => false
     end.

(** Modelled from the spec: the table of step 4 of the native stemmer.
    The suffix is removed when the stem before it has a measure above 1;
    "ion" goes only after "s" or "t". *)
Definition step4_rules : list SuffixRule :=
  [ rule "al" "" 2; rule "ance" "" 2; rule "ence" "" 2; rule "er" "" 2;
    rule "ic" "" 2; rule "able" "" 2; rule "ible" "" 2; rule "ant" "" 2;
    rule "ement" "" 2; rule "ment" "" 2; rule "ent" "" 2;
    {| suffix_string := bytes "ion"; replacement_string := [];
       minimum_measure := 2; extra_predicate := after_s_or_t |};
    rule "ou" "" 2; rule "ism" "" 2; rule "ate" "" 2; rule "iti" "" 2;
    rule "ous" "" 2; rule "ive" "" 2; rule "ize" "" 2 ].

(** Modelled from the spec: step 4 of the native stemmer. *)
Definition step4 (w : list byte) : list byte := apply_rules step4_rules w.

(** ** Step 5: final cleanup *)

(** Modelled from the spec: step 5a of the native stemmer, a final "e" is
    removed when the stem without it has a measure above 1, or a measure
    of 1 and no consonant-vowel-consonant ending. *)
Definition step5a (w : list byte) : list byte :=
  match ends w (bytes "e") with
  | Some stem =>
      let m := measure stem in
      if (1 <? m) || (Nat.eqb m 1 && negb (cvcRule stem (last_index stem)))
      then stem
      else w
  | None => w
  end.

(** Modelled from the spec: step 5b of the native stemmer, a final double
    "l" loses one letter when the measure is above 1. *)
Definition step5b (w : list byte) : list byte :=
  if (1 <? measure w)
     && Byte.eqb (nth (last_index w) w "000") "l"
     && doubleConsonant w (last_index w)
  then removelast w
  else w.

(** Modelled from the spec: step 5 of the native stemmer. *)
Definition step5 (w : list byte) : list byte := step5b (step5a w).

(** ** The engine *)

(** Modelled from the spec: the operation [stem(word)] of the native
    stemmer engine, the five stages in sequence. *)
Definition stem_word (w : list byte) : list byte :=
  step5 (step4 (step3 (step2 (step1 w)))).

(** Modelled from the spec: the native routine
    [int stem(struct stemmer* z, char* b, int k)], declared in Stemmer.cpp
    and defined elsewhere.  The wrapper passes the
    length of the word for [k] and uses the value returned as the length
    of the stem, so the word is the first [k] bytes of the buffer, its
    stem is written over them, and the length of the stem is returned.
    What lies behind the stem in the buffer stays as it was.  A word of
    length zero is handed back unchanged. *)
Definition stem (b : list byte) (k : Z) : list byte * Z :=
  if (k <=? 0)%Z then (b, k)
  else
    let s := stem_word (firstn (Z.to_nat k) b) in
    (s ++ skipn (length s) b, Z.of_nat (length s)).

End Porter.

(** * Managed strings and exceptions *)

(** A [String^] handle is either [nullptr] or refers to an immutable string:
    it is an [option string], the string being carried by value.  Characters
    are 8-bit, one byte each in the ANSI encoding, which is exact for ASCII
    words. *)

(** The exceptions [StemWord] can raise. *)
Inductive exception :=
| NullReferenceException
| ArgumentOutOfRangeException.

(** Both kinds derive from [SystemException]; only the second is an
    [ArgumentException], the family that reports a bad argument. *)
Definition is_ArgumentException (e : exception) : bool :=
  match e with
  | ArgumentOutOfRangeException => true
  | NullReferenceException => false
  end.

(** How an expression or a call ends. *)
Inductive outcome (A : Type) :=
| Returned (a : A)
| Thrown (e : exception).
Arguments Returned {A} a.
Arguments Thrown {A} e.

(** [word->Length]: dereferencing [nullptr] raises. *)
Definition Length (this : option string) : outcome Z :=
  match this with
  | None => Thrown NullReferenceException
  | Some s => Returned (Z.of_nat (String.length s))
  end.

(** [word->Substring(startIndex, length)] with the range checks of
    [System.String]. *)
Definition Substring (this : option string) (startIndex length : Z) : outcome string :=
  match this with
  | None => Thrown NullReferenceException
  | Some s =>
      let n := Z.of_nat (String.length s) in
      if (startIndex <? 0) || (n <? startIndex)
         || (length <? 0) || (n - length <? startIndex)
      then Thrown ArgumentOutOfRangeException
      else Returned (substring (Z.to_nat startIndex) (Z.to_nat length) s)
  end.

(** * Programs over unmanaged memory *)

(** The calls of [StemWord] that touch unmanaged memory.  Pointers
    ([IntPtr], [char*], [struct stemmer*]) are integers, 0 being null. *)
Inductive op :=
| Marshal_StringToHGlobalAnsi (s : option string)
| Native_create_stemmer
| Native_stem (z b k : Z)
| Marshal_FreeHGlobal (hglobal : Z)
| Native_free_stemmer (z : Z).

(** A program performs calls one after the other and ends by returning a
    value or by throwing. *)
Inductive prog (A : Type) : Type :=
| Ret (a : A)
| Throw (e : exception)
| Call (o : op) (k : Z -> prog A).
Arguments Ret {A} a.
Arguments Throw {A} e.
Arguments Call {A} o k.

(** Sequencing: what follows a statement that throws is skipped. *)
Fixpoint bind {A B} (p : prog A) (f : A -> prog B) : prog B :=
  match p with
  | Ret a => f a
  | Throw e => Throw e
  | Call o k => Call o (fun v => bind (k v) f)
  end.

Notation "'let!' x ':=' p 'in' q" := (bind p (fun x => q))
  (at level 10, x name, p at level 100, q at level 200).
Notation "'do!' p 'in' q" := (bind p (fun _ => q))
  (at level 10, p at level 100, q at level 200).

(** An expression of managed code, which returns or throws without
    touching unmanaged memory. *)
Definition lift {A} (o : outcome A) : prog A :=
  match o with
  | Returned a => Ret a
  | Thrown e => Throw e
  end.

(** [try { body } catch (...) { handler }] *)
Fixpoint try_catch {A} (body : prog A) (handler : exception -> prog A) : prog A :=
  match body with
  | Ret a => Ret a
  | Throw e => handler e
  | Call o k => Call o (fun v => try_catch (k v) handler)
  end.

(** [try { body } finally { cleanup }]: the cleanup runs however the body
    ends, after the value returned has been computed. *)
Fixpoint try_finally {A} (body : prog A) (cleanup : prog unit) : prog A :=
  match body with
  | Ret a => do! cleanup in Ret a
  | Throw e => do! cleanup in Throw e
  | Call o k => Call o (fun v => try_finally (k v) cleanup)
  end.

(** The two calls of [System::Runtime::InteropServices::Marshal]. *)
Module Marshal.
Definition StringToHGlobalAnsi (s : option string) : prog Z :=
  Call (Marshal_StringToHGlobalAnsi s) Ret.
Definition FreeHGlobal (hglobal : Z) : prog unit :=
  Call (Marshal_FreeHGlobal hglobal) (fun _ => Ret tt).
End Marshal.

(** The three routines declared [extern "C"]. *)
Definition create_stemmer : prog Z := Call Native_create_stemmer Ret.
Definition free_stemmer (z : Z) : prog unit :=
  Call (Native_free_stemmer z) (fun _ => Ret tt).
Definition stem (z b k : Z) : prog Z := Call (Native_stem z b k) Ret.

(** * Unmanaged memory and the meaning of the calls *)

(** The ANSI copy of a managed string: its bytes and the terminator. *)
Definition marshalled (s : string) : list byte := bytes s ++ ["000"%byte].

(** The unmanaged memory a call can reach. *)
Record heap := Heap {
  hglobal : gmap Z (list byte);  (* the live blocks handed out by [Marshal] *)
  stemmers : gset Z              (* the live native stemmer contexts *)
}.

(** An allocation policy hands out an address that is neither live nor
    null.  Nothing else is known about the address chosen. *)
Record allocator := Allocator {
  pick : gset Z -> Z;
  pick_fresh : forall live, pick live ∉ live;
  pick_nonnull : forall live, pick live <> 0
}.

(** The policy that hands out the least address that is free. *)
Definition lowest_free : allocator.
Proof.
refine {| pick := fun live => fresh ({[0]} ∪ live) |};
  intros live; pose proof (is_fresh ({[0]} ∪ live)); set_solver.
Defined.

Section Semantics.

(** The native routine, as a function from the contents of the block it
    is handed and [k] to the new contents and the value returned.  It
    touches nothing but that block and its context. *)
Variable native_stem : list byte -> Z -> list byte * Z.

(** The policies of the unmanaged heap of [Marshal] and of the C heap. *)
Variables halloc malloc : allocator.

(** One call: the value it returns and the memory it leaves, or [None]
    when the call has no defined behaviour (a block or context that is
    not live).  [StringToHGlobalAnsi] hands back the null pointer for
    [nullptr] and a fresh block holding the copy otherwise; [FreeHGlobal]
    does nothing on the null pointer. *)
Definition perform (o : op) (h : heap) : option (Z * heap) :=
  match o with
  | Marshal_StringToHGlobalAnsi None => Some (0, h)
  | Marshal_StringToHGlobalAnsi (Some s) =>
      let p := pick halloc (dom (hglobal h)) in
      Some (p, Heap (<[p := marshalled s]> (hglobal h)) (stemmers h))
  | Native_create_stemmer =>
      let z := pick malloc (stemmers h) in
      Some (z, Heap (hglobal h) ({[z]} ∪ stemmers h))
  | Native_stem z b k =>
      if decide (z ∈ stemmers h) then
        match hglobal h !! b with
        | Some buffer =>
            let (buffer', n) := native_stem buffer k in
            Some (n, Heap (<[b := buffer']> (hglobal h)) (stemmers h))
        | None => None
        end
      else None
  | Marshal_FreeHGlobal p =>
      if decide (p = 0) then Some (0, h)
      else
        match hglobal h !! p with
        | Some _ => Some (0, Heap (delete p (hglobal h)) (stemmers h))
        | None => None
        end
  | Native_free_stemmer z =>
      if decide (z ∈ stemmers h)
      then Some (0, Heap (hglobal h) (stemmers h ∖ {[z]}))
      else None
  end.

(** A call together with the value it returned. *)
Definition event : Type := op * Z.

(** Sequential execution: the calls made, how the program ended and the
    memory it left. *)
Fixpoint run {A} (p : prog A) (h : heap)
  : option (list event * outcome A * heap) :=
  match p with
  | Ret a => Some ([], Returned a, h)
  | Throw e => Some ([], Thrown e, h)
  | Call o k =>
      match perform o h with
      | Some (v, h') =>
          match run (k v) h' with
          | Some (evs, r, h'') => Some ((o, v) :: evs, r, h'')
          | None => None
          end
      | None => None
      end
  end.

(** One call of a program; a finished program stays as it is. *)
Definition step {A} (p : prog A) (h : heap) : option (prog A * heap) :=
  match p with
  | Call o k =>
      match perform o h with
      | Some (v, h') => Some (k v, h')
      | None => None
      end
  | _ => Some (p, h)
  end.

(** [n] calls of one program in a row. *)
Fixpoint steps {A} (n : nat) (p : prog A) (h : heap)
  : option (prog A * heap) :=
  match n with
  | O => Some (p, h)
  | S n' =>
      match step p h with
      | Some (p', h') => steps n' p' h'
      | None => None
      end
  end.

(** Several calls in progress over one memory.  A schedule names, step
    by step, the thread that makes its next call. *)
Definition sched_step {A} (i : nat) (c : heap * list (prog A))
  : option (heap * list (prog A)) :=
  match snd c !! i with
  | Some p =>
      match step p (fst c) with
      | Some (p', h') => Some (h', <[i := p']> (snd c))
      | None => None
      end
  | None => Some c
  end.

(** A whole schedule. *)
Fixpoint interleave {A} (schedule : list nat) (c : heap * list (prog A))
  : option (heap * list (prog A)) :=
  match schedule with
  | [] => Some c
  | i :: rest =>
      match sched_step i c with
      | Some c' => interleave rest c'
      | None => None
      end
  end.

End Semantics.

(** How a thread ended, if it has. *)
Definition finished {A} (p : prog A) : option (outcome A) :=
  match p with
  | Ret a => Some (Returned a)
  | Throw e => Some (Thrown e)
  | Call _ _ => None
  end.

(** * The wrapper *)

(** [String^ Stemmer::StemWord( String^ word )], Stemmer.cpp. *)
Definition StemWord (word : option string) : prog string :=
  let! stringPtr := Marshal.StringToHGlobalAnsi word in
  let! z := create_stemmer in
  try_finally
    (try_catch
       (let! len := lift (Length word) in
        let! newLen := stem z stringPtr len in
        lift (Substring word 0 newLen))
       (fun e => Throw e))
    (do! Marshal.FreeHGlobal stringPtr in
     free_stemmer z).

(** * Words *)

(** The letters a to z. *)
Definition is_lowercase_letter (c : ascii) : bool :=
  (97 <=? nat_of_ascii c)%nat && (nat_of_ascii c <=? 122)%nat.

(** A word of lowercase ASCII letters only. *)
Fixpoint lowercase (s : string) : bool :=
  match s with
  | EmptyString => true
  | String c rest => is_lowercase_letter c && lowercase rest
  end.

(** * A call in progress *)

(** The program that is left once a call has returned [v]. *)
Definition resume {A} (p : prog A) (v : Z) : prog A :=
  match p with
  | Call _ k => k v
  | _ => p
  end.

(** The program that is left after several calls have returned. *)
Definition resumes {A} (p : prog A) (vs : list Z) : prog A :=
  fold_left resume vs p.

(** Where a thread stands in [StemWord], with the pointers it holds. *)
Inductive phase :=
| Entered                        (* before the string is marshalled *)
| Marshalled (stringPtr : Z)     (* before the context is created *)
| InTry (stringPtr z : Z)        (* in the try block, before [stem] *)
| Leaving (stringPtr z : Z)      (* in the finally block, before FreeHGlobal *)
| Releasing (stringPtr z : Z)    (* before [free_stemmer] *)
| Exited (stringPtr z : Z).

(** The block a thread holds, the null pointer being no block. *)
Definition owns_block (ph : phase) (a : Z) : Prop :=
  a <> 0 /\
  match ph with
  | Marshalled p | InTry p _ | Leaving p _ => a = p
  | _ => False
  end.

(** The context a thread holds. *)
Definition owns_stemmer (ph : phase) (a : Z) : Prop :=
  match ph with
  | InTry _ z | Leaving _ z | Releasing _ z => a = z
  | _ => False
  end.

(** How many of its calls a thread has behind it, at least. *)
Definition rank (ph : phase) : nat :=
  match ph with
  | Entered => 0
  | Marshalled _ => 1
  | InTry _ _ => 2
  | Leaving _ _ => 3
  | Releasing _ _ => 4
  | Exited _ _ => 5
  end.

(** The rank of thread [i] of a pool. *)
Definition progress (phases : list phase) (i : nat) : nat :=
  match phases !! i with
  | Some ph => rank ph
  | None => 0
  end.

Section Threads.

Variable native_stem : list byte -> Z -> list byte * Z.

(** The length the native routine reports for a word. *)
Definition newLen_of (s : string) : Z :=
  snd (native_stem (marshalled s) (Z.of_nat (String.length s))).

(** How a call on [word] ends: by the exception of [word->Length] on
    [nullptr], else by what [Substring] makes of the length reported
    ([run_StemWord_Some] and [run_StemWord_None] below). *)
Definition StemWord_outcome (word : option string) : outcome string :=
  match word with
  | None => Thrown NullReferenceException
  | Some s => Substring word 0 (newLen_of s)
  end.

(** The values the calls of a thread have returned so far.  With
    [nullptr] the try block is left before [stem] is called. *)
Definition history (word : option string) (ph : phase) : list Z :=
  let stemmed :=
    match word with
    | Some s => [newLen_of s]
    | None => []
    end in
  match ph with
  | Entered => []
  | Marshalled p => [p]
  | InTry p z => [p; z]
  | Leaving p z => [p; z] ++ stemmed
  | Releasing p z => [p; z] ++ stemmed ++ [0]
  | Exited p z => [p; z] ++ stemmed ++ [0; 0]
  end.

(** What is left of [StemWord word] for a thread in a given phase. *)
Definition residual (word : option string) (ph : phase) : prog string :=
  resumes (StemWord word) (history word ph).

(** What a thread in a given phase relies on: its block holds the copy of
    the word until the native routine has run, and its block and context
    are live. *)
Definition thread_ok (h : heap) (word : option string) (ph : phase) : Prop :=
  (forall a, owns_block ph a -> a ∈ dom (hglobal h)) /\
  (forall a, owns_stemmer ph a -> a ∈ stemmers h) /\
  match ph, word with
  | Marshalled p, Some s | InTry p _, Some s =>
      p <> 0 /\ hglobal h !! p = Some (marshalled s)
  | Leaving p _, Some _ => p <> 0
  | Marshalled p, None | Leaving p _, None => p = 0
  | InTry _ _, None => False
  | _, _ => True
  end.

(** The threads of a pool run [StemWord] on [words], stand in [phases],
    and no two of them hold the same block or the same context. *)
Definition pool_ok (h : heap) (words : list (option string))
    (phases : list phase) (pool : list (prog string)) : Prop :=
  length phases = length words /\
  length pool = length words /\
  (forall i w ph, words !! i = Some w -> phases !! i = Some ph ->
     pool !! i = Some (residual w ph) /\ thread_ok h w ph) /\
  (forall i j phi phj a, i <> j ->
     phases !! i = Some phi -> phases !! j = Some phj ->
     (owns_block phi a -> ~ owns_block phj a) /\
     (owns_stemmer phi a -> ~ owns_stemmer phj a)).

End Threads.

(** * What a pool holds of the memory *)


(** A block, or a context, that some thread of the pool holds. *)
Definition held_block (phases : list phase) (a : Z) : Prop :=
  exists i ph, phases !! i = Some ph /\ owns_block ph a.

Definition held_stemmer (phases : list phase) (a : Z) : Prop :=
  exists i ph, phases !! i = Some ph /\ owns_stemmer ph a.

(** The memory [h] of a pool that started from [h0]: what no thread holds
    is as it was in [h0], and what a thread holds was not live in [h0]. *)
Definition accounted (h0 h : heap) (phases : list phase) : Prop :=
  (forall a, ~ held_block phases a -> hglobal h !! a = hglobal h0 !! a) /\
  (forall a, ~ held_stemmer phases a ->
     (a ∈ stemmers h <-> a ∈ stemmers h0)) /\
  (forall a, held_block phases a -> a ∉ dom (hglobal h0)) /\
  (forall a, held_stemmer phases a -> a ∉ stemmers h0).

(** * The stemming algorithm never lengthens a word *)

Section PorterLength.

Import Porter.
Local Open Scope nat_scope.

Lemma ends_length (w suffix stem : list byte) :
  ends w suffix = Some stem ->
  length w = length stem + length suffix.
Proof.
  unfold ends. intros H.
  destruct (length suffix <=? length w) eqn:Hle; simpl in H; [|discriminate].
  destruct (bytes_eqb _ suffix); [|discriminate].
  injection H as <-. apply Nat.leb_le in Hle.
  rewrite length_firstn. lia.
Qed.

Lemma removelast_length_le (l : list byte) :
  length (removelast l) <= length l.
Proof.
  rewrite removelast_firstn_len, length_firstn. lia.
Qed.

Lemma apply_rules_length (table : list SuffixRule) (w : list byte) :
  shrinking table = true ->
  length (apply_rules table w) <= length w.
Proof.
  induction table as [|r rest IH]; simpl; intros Hs; [lia|].
  apply andb_prop in Hs as [Hr Hrest]. apply Nat.leb_le in Hr.
  destruct (ends w (suffix_string r)) as [stem|] eqn:He.
  - apply ends_length in He.
    destruct (_ && _); [|lia].
    rewrite length_app. lia.
  - auto.
Qed.

Lemma step1a_length w : length (step1a w) <= length w.
Proof. by apply apply_rules_length. Qed.

Lemma step1b1_length stem : length (step1b1 stem) <= S (length stem).
Proof.
  unfold step1b1.
  destruct (existsb _ _).
  { rewrite length_app. simpl. lia. }
  destruct (_ && _).
  { pose proof (removelast_length_le stem). lia. }
  destruct (_ && _); [rewrite length_app; simpl|]; lia.
Qed.

Lemma step1b_length w : length (step1b w) <= length w.
Proof.
  unfold step1b.
  destruct (ends w (bytes "eed")) as [stem|] eqn:Heed.
  { apply ends_length in Heed. simpl in Heed.
    destruct (0 <? measure stem); [rewrite length_app; simpl|]; lia. }
  destruct (ends w (bytes "ed")) as [stem|] eqn:Hed.
  { apply ends_length in Hed. simpl in Hed.
    destruct (containsVowel stem); [|lia].
    pose proof (step1b1_length stem). lia. }
  destruct (ends w (bytes "ing")) as [stem|] eqn:Hing; [|lia].
  apply ends_length in Hing. simpl in Hing.
  destruct (containsVowel stem); [|lia].
  pose proof (step1b1_length stem). lia.
Qed.

Lemma step1c_length w : length (step1c w) <= length w.
Proof.
  unfold step1c.
  destruct (ends w (bytes "y")) as [stem|] eqn:Hy; [|lia].
  apply ends_length in Hy. simpl in Hy.
  destruct (containsVowel stem); [rewrite length_app; simpl|]; lia.
Qed.

Lemma step5a_length w : length (step5a w) <= length w.
Proof.
  unfold step5a.
  destruct (ends w (bytes "e")) as [stem|] eqn:He; [|lia].
  apply ends_length in He. simpl in He.
  destruct (_ || _); lia.
Qed.

Lemma step5b_length w : length (step5b w) <= length w.
Proof.
  unfold step5b. destruct (_ && _); [apply removelast_length_le|lia].
Qed.

Lemma stem_word_length w : length (stem_word w) <= length w.
Proof.
  unfold stem_word, step5, step4, step3, step2, step1.
  pose proof (step1a_length w).
  pose proof (step1b_length (step1a w)).
  pose proof (step1c_length (step1b (step1a w))).
  set (w1 := step1c _) in *.
  assert (length (apply_rules step2_rules w1) <= length w1)
    by (by apply apply_rules_length).
  set (w2 := apply_rules step2_rules w1) in *.
  assert (length (apply_rules step3_rules w2) <= length w2)
    by (by apply apply_rules_length).
  set (w3 := apply_rules step3_rules w2) in *.
  assert (length (apply_rules step4_rules w3) <= length w3)
    by (by apply apply_rules_length).
  set (w4 := apply_rules step4_rules w3) in *.
  pose proof (step5a_length w4).
  pose proof (step5b_length (step5a w4)).
  lia.
Qed.

(** The length the native routine returns lies between 0 and the length it
    was given. *)
Lemma stem_bounds (b : list byte) (k : Z) :
  (0 <= k)%Z -> (0 <= snd (Porter.stem b k) <= k)%Z.
Proof.
  intros Hk. unfold Porter.stem.
  destruct (k <=? 0)%Z eqn:Hle; cbn [snd]; [lia|].
  pose proof (stem_word_length (firstn (Z.to_nat k) b)) as Hlen.
  rewrite length_firstn in Hlen. lia.
Qed.

End PorterLength.

(** The algorithm on the sample words of the specification. *)
Example stem_word_samples :
  map (fun w => string_of_list_byte (Porter.stem_word (bytes w)))
      [ "caresses"; "ponies"; "agreed"; "feed"; "conflated";
        "troubleshooting" ]%string
  = [ "caress"; "poni"; "agre"; "feed"; "conflat"; "troubleshoot" ]%string.
Proof. by vm_compute. Qed.

(** * Managed strings *)

Lemma substring_0_prefix (s : string) (n : nat) :
  (n <= String.length s)%nat ->
  exists rest, s = (substring 0 n s ++ rest)%string
               /\ String.length (substring 0 n s) = n.
Proof.
  revert n. induction s as [|c s IH]; intros [|n] Hn; simpl in *;
    try (eexists; split; reflexivity); try lia.
  destruct (IH n) as (rest & Heq & Hlen); [lia|].
  exists rest. split; [|by rewrite Hlen].
  change (String c s = String c (substring 0 n s ++ rest)%string).
  by rewrite <- Heq.
Qed.

(** What [Substring] hands back from position 0 is a prefix of the string,
    of the length asked for; a length out of range is refused. *)
Lemma Substring_0_spec (s : string) (n : Z) :
  match Substring (Some s) 0 n with
  | Returned r =>
      (0 <= n <= Z.of_nat (String.length s))
      /\ (exists rest, s = (r ++ rest)%string)
      /\ Z.of_nat (String.length r) = n
  | Thrown e =>
      e = ArgumentOutOfRangeException
      /\ ~ (0 <= n <= Z.of_nat (String.length s))
  end.
Proof.
  unfold Substring.
  destruct (_ || _) eqn:Hc.
  - split; [done|]. intros [H0 Hn].
    repeat (apply orb_prop in Hc as [Hc|Hc]);
      try apply Z.ltb_lt in Hc; lia.
  - repeat (apply orb_false_elim in Hc as [Hc ?]).
    repeat match goal with H : (_ <? _) = false |- _ =>
      apply Z.ltb_ge in H end.
    destruct (substring_0_prefix s (Z.to_nat n)) as (rest & Heq & Hlen);
      [lia|].
    change (Z.to_nat 0) with 0%nat.
    split; [lia|]. split; [by exists rest|]. rewrite Hlen. lia.
Qed.

(** * Sequential execution of the wrapper *)

Lemma release_fresh (live : gset Z) (z : Z) :
  z ∉ live -> ({[z]} ∪ live) ∖ {[z]} = live.
Proof.
  intros Hz. apply set_eq. intros a.
  rewrite elem_of_difference, elem_of_union, elem_of_singleton.
  split; [tauto|]. intros Ha. split; [tauto|]. by intros ->.
Qed.

Lemma heap_restored (h : heap) (p z : Z) (b : list byte) :
  p ∉ dom (hglobal h) -> z ∉ stemmers h ->
  Heap (delete p (<[p := b]> (hglobal h)))
       (({[z]} ∪ stemmers h) ∖ {[z]}) = h.
Proof.
  intros Hp Hz. destruct h as [m st]; simpl in *. f_equal.
  - apply delete_insert_id. by apply not_elem_of_dom.
  - by apply release_fresh.
Qed.

Section Sequential.

Variable native_stem : list byte -> Z -> list byte * Z.
Variables halloc malloc : allocator.

(** A call on a word: the five calls made, the result cut from the word,
    and the memory as it was found. *)
Lemma run_StemWord_Some (s : string) (h : heap) :
  let p := pick halloc (dom (hglobal h)) in
  let z := pick malloc (stemmers h) in
  run native_stem halloc malloc (StemWord (Some s)) h =
    Some ([ (Marshal_StringToHGlobalAnsi (Some s), p);
            (Native_create_stemmer, z);
            (Native_stem z p (Z.of_nat (String.length s)),
             newLen_of native_stem s);
            (Marshal_FreeHGlobal p, 0);
            (Native_free_stemmer z, 0) ],
          StemWord_outcome native_stem (Some s), h).
Proof.
  intros p z. unfold StemWord, StemWord_outcome, newLen_of.
  cbn -[Substring]. fold p z.
  rewrite decide_True by set_solver. rewrite lookup_insert_eq.
  destruct (native_stem (marshalled s) (Z.of_nat (String.length s)))
    as [buffer' n].
  cbn -[Substring].
  assert (Hp : p ∉ dom (hglobal h)) by apply pick_fresh.
  assert (Hz : z ∉ stemmers h) by apply pick_fresh.
  assert (Hnz : p <> 0) by apply pick_nonnull.
  rewrite insert_insert_eq.
  destruct (Substring (Some s) 0 n); cbn;
    rewrite decide_False by done; rewrite lookup_insert_eq; cbn;
    rewrite decide_True by set_solver; cbn;
    by rewrite heap_restored.
Qed.

(** A call on [nullptr]: no block is handed out, the context is created
    and released, the native routine is not called. *)
Lemma run_StemWord_None (h : heap) :
  let z := pick malloc (stemmers h) in
  run native_stem halloc malloc (StemWord None) h =
    Some ([ (Marshal_StringToHGlobalAnsi None, 0);
            (Native_create_stemmer, z);
            (Marshal_FreeHGlobal 0, 0);
            (Native_free_stemmer z, 0) ],
          Thrown NullReferenceException, h).
Proof.
  intros z. unfold StemWord. cbn. fold z.
  assert (Hz : z ∉ stemmers h) by apply pick_fresh.
  rewrite decide_True by done. cbn.
  rewrite decide_True by set_solver. cbn. clearbody z.
  destruct h as [m st]; simpl in *. do 3 f_equal. by apply release_fresh.
Qed.

(** However a call is made, it ends the way its word decides and leaves
    the memory as it found it. *)
Lemma run_StemWord_outcome (word : option string) (h : heap) :
  exists evs,
    run native_stem halloc malloc (StemWord word) h
    = Some (evs, StemWord_outcome native_stem word, h).
Proof.
  destruct word as [s|]; eexists.
  - apply run_StemWord_Some.
  - apply run_StemWord_None.
Qed.

End Sequential.

(** * The three ways of running a program agree *)

Section Agreement.

Variable native_stem : list byte -> Z -> list byte * Z.
Variables halloc malloc : allocator.

Lemma steps_finished {A} (n : nat) (o : outcome A) (h : heap) :
  steps native_stem halloc malloc n (lift o) h = Some (lift o, h).
Proof. induction n; destruct o; simpl in *; done. Qed.

(** A run is its calls made one by one. *)
Lemma run_steps {A} (p : prog A) :
  forall (h h' : heap) evs (o : outcome A),
    run native_stem halloc malloc p h = Some (evs, o, h') ->
    steps native_stem halloc malloc (length evs) p h = Some (lift o, h').
Proof.
  induction p as [a|e|op k IH]; intros h h' evs o Hrun; simpl in Hrun.
  - by injection Hrun as <- <- <-.
  - by injection Hrun as <- <- <-.
  - destruct (perform native_stem halloc malloc op h) as [[v h1]|] eqn:Hop;
      [|discriminate].
    destruct (run native_stem halloc malloc (k v) h1) as [[[evs1 o1] h2]|]
      eqn:Hk; [|discriminate].
    injection Hrun as <- <- <-. simpl. rewrite Hop. by apply IH.
Qed.

(** A pool of one thread makes the calls of its program one by one. *)
Lemma interleave_single {A} (n : nat) :
  forall (p : prog A) (h : heap),
    interleave native_stem halloc malloc (replicate n 0%nat) (h, [p])
    = match steps native_stem halloc malloc n p h with
      | Some (p', h') => Some (h', [p'])
      | None => None
      end.
Proof.
  induction n as [|n IH]; intros p h; [done|].
  simpl. unfold sched_step. simpl.
  destruct (step native_stem halloc malloc p h) as [[p1 h1]|]; [|done].
  apply IH.
Qed.

End Agreement.

(** * Properties of [StemWord] *)

(** C1. Whatever the native routine does, the string a call on a word
    returns is a character-for-character prefix of that word, and no longer
    than it; the only other way the call can end is the range error of
    [Substring]. *)
Theorem StemWord_prefix_of_input
    (native_stem : list byte -> Z -> list byte * Z)
    (halloc malloc : allocator) (word : string) (h : heap) :
  exists evs o,
    run native_stem halloc malloc (StemWord (Some word)) h = Some (evs, o, h)
    /\ match o with
       | Returned r =>
           (exists rest, word = (r ++ rest)%string)
           /\ (String.length r <= String.length word)%nat
       | Thrown e => e = ArgumentOutOfRangeException
       end.
Proof.
  eexists _, _. split; [apply run_StemWord_Some|].
  unfold StemWord_outcome.
  pose proof (Substring_0_spec word (newLen_of native_stem word)) as H.
  destruct (Substring _ _ _); [|tauto].
  destruct H as (Hn & Hpre & Hlen). split; [done | lia].
Qed.

(** The string returned is cut from the word, not read back from the
    buffer: where the algorithm rewrites a letter, as in "happy", whose stem
    is "happi", the call hands back the letters of the word. *)
Remark StemWord_cuts_the_word (halloc malloc : allocator) (h : heap) :
  Porter.stem_word (bytes "happy") = bytes "happi"
  /\ exists evs,
       run Porter.stem halloc malloc (StemWord (Some "happy"%string)) h
       = Some (evs, Returned "happy"%string, h).
Proof.
  split; [by vm_compute|]. eexists. rewrite run_StemWord_Some. reflexivity.
Qed.

(** C2, as amended. On "relational" the call returns "relat": step 2 turns
    "ational" into "ate", and step 5a drops the final "e" of "relate",
    the measure of "relat" being 2. *)
Theorem StemWord_relational (halloc malloc : allocator) (h : heap) :
  (exists evs,
     run Porter.stem halloc malloc (StemWord (Some "relational"%string)) h
     = Some (evs, Returned "relat"%string, h))
  /\ Porter.stem_word (bytes "relational") = bytes "relat"
  /\ Porter.step2 (bytes "relational") = bytes "relate"
  /\ Porter.measure (bytes "relat") = 2%nat
  /\ Porter.step5a (bytes "relate") = bytes "relat".
Proof.
  split; [|by vm_compute].
  eexists. rewrite run_StemWord_Some. reflexivity.
Qed.

(** C2 as stated fails: whatever the native routine reports, the call on
    "relational" does not return "relate", which is no prefix of it. *)
Lemma StemWord_relational_not_relate :
  ~ exists (native_stem : list byte -> Z -> list byte * Z)
           (halloc malloc : allocator) (h : heap) evs h',
      run native_stem halloc malloc
          (StemWord (Some "relational"%string)) h
      = Some (evs, Returned "relate"%string, h').
Proof.
  intros (native_stem & halloc & malloc & h & evs & h' & H).
  rewrite run_StemWord_Some in H. unfold StemWord_outcome in H.
  pose proof (Substring_0_spec "relational"
                (newLen_of native_stem "relational")) as Hs.
  destruct (Substring (Some "relational"%string) 0 _) as [r|e];
    [|discriminate H].
  assert (r = "relate"%string) as -> by congruence.
  destruct Hs as (_ & (rest & Hrest) & _). discriminate Hrest.
Qed.

(** C3. On the empty string the call returns the empty string. *)
Theorem StemWord_empty (halloc malloc : allocator) (h : heap) :
  (exists evs,
     run Porter.stem halloc malloc (StemWord (Some ""%string)) h
     = Some (evs, Returned ""%string, h))
  /\ Porter.stem_word [] = [].
Proof.
  split; [|done]. eexists. rewrite run_StemWord_Some. reflexivity.
Qed.

(** C4, as amended. On [nullptr] the call returns no stem: reading the
    length of the word raises a null-reference exception, which is not of
    the invalid-argument family.  This happens after the context has been
    created; the native routine is not called and the context is released
    before the exception leaves the call. *)
Theorem StemWord_null_throws_NullReference
    (native_stem : list byte -> Z -> list byte * Z)
    (halloc malloc : allocator) (h : heap) :
  (exists z,
     run native_stem halloc malloc (StemWord None) h =
       Some ([ (Marshal_StringToHGlobalAnsi None, 0);
               (Native_create_stemmer, z);
               (Marshal_FreeHGlobal 0, 0);
               (Native_free_stemmer z, 0) ],
             Thrown NullReferenceException, h))
  /\ is_ArgumentException NullReferenceException = false.
Proof. split; [|done]. eexists. apply run_StemWord_None. Qed.

(** C4 as stated fails: whatever the native routine, the call on
    [nullptr] does not end in an exception of the invalid-argument
    family. *)
Lemma StemWord_null_no_argument_exception :
  ~ exists (native_stem : list byte -> Z -> list byte * Z)
           (halloc malloc : allocator) (h : heap) evs e h',
      run native_stem halloc malloc (StemWord None) h
      = Some (evs, Thrown e, h')
      /\ is_ArgumentException e = true.
Proof.
  intros (native_stem & halloc & malloc & h & evs & e & h' & H & He).
  rewrite run_StemWord_None in H.
  injection H as _ <- _. discriminate He.
Qed.

(** C5. On "feed" the call returns "feed": the word ends in "eed", the
    stem before it is "f", of measure 0, so step 1b leaves the word as it
    is. *)
Theorem StemWord_feed (halloc malloc : allocator) (h : heap) :
  (exists evs,
     run Porter.stem halloc malloc (StemWord (Some "feed"%string)) h
     = Some (evs, Returned "feed"%string, h))
  /\ Porter.stem_word (bytes "feed") = bytes "feed"
  /\ Porter.ends (bytes "feed") (bytes "eed") = Some (bytes "f")
  /\ Porter.measure (bytes "f") = 0%nat
  /\ Porter.step1b (bytes "feed") = bytes "feed".
Proof.
  split; [|by vm_compute].
  eexists. rewrite run_StemWord_Some. reflexivity.
Qed.

(** C7. Stemming is not idempotent: "agreed" is stemmed to "agre", and
    "agre" to "agr". *)
Theorem StemWord_not_idempotent :
  exists w r1 r2 : string,
    r1 <> r2
    /\ Porter.stem_word (bytes w) = bytes r1
    /\ Porter.stem_word (bytes r1) = bytes r2
    /\ forall (halloc malloc : allocator) (h : heap),
         (exists evs,
            run Porter.stem halloc malloc (StemWord (Some w)) h
            = Some (evs, Returned r1, h))
         /\ (exists evs,
               run Porter.stem halloc malloc (StemWord (Some r1)) h
               = Some (evs, Returned r2, h)).
Proof.
  exists "agreed"%string, "agre"%string, "agr"%string.
  split; [discriminate|]. split; [by vm_compute|]. split; [by vm_compute|].
  intros halloc malloc h.
  split; eexists; rewrite run_StemWord_Some; reflexivity.
Qed.

(** C8. On a word of lowercase ASCII letters the call returns a string:
    every call it makes is defined, nothing is thrown, and the memory is
    left as it was found. *)
Theorem StemWord_total_on_lowercase
    (halloc malloc : allocator) (word : string) (h : heap) :
  lowercase word = true ->
  exists evs r,
    run Porter.stem halloc malloc (StemWord (Some word)) h
    = Some (evs, Returned r, h).
Proof.
  intros _. rewrite run_StemWord_Some. unfold StemWord_outcome.
  pose proof (Substring_0_spec word (newLen_of Porter.stem word)) as H.
  destruct (Substring _ _ _) as [r|e]; [by eexists _, _|].
  destruct H as [_ H]. exfalso. apply H.
  apply stem_bounds. lia.
Qed.

(** The theorem at work on "troubleshooting". *)
Lemma StemWord_total_on_lowercase_witness :
  exists evs r,
    run Porter.stem lowest_free lowest_free
        (StemWord (Some "troubleshooting"%string)) (Heap ∅ ∅)
    = Some (evs, Returned r, Heap ∅ ∅).
Proof.
  apply (StemWord_total_on_lowercase lowest_free lowest_free
           "troubleshooting"%string (Heap ∅ ∅)).
  reflexivity.
Defined.

(** C9. A call hands itself a block (none for [nullptr], where the pointer
    is null) and a context that were not live before, calls the native
    routine on these two only, and frees both as its last two calls,
    however it ends; the memory is then as it was found.  How the call ends
    depends on the word alone, not on the memory it starts from. *)
Theorem StemWord_acquires_and_releases
    (native_stem : list byte -> Z -> list byte * Z) (word : option string) :
  exists o, forall (halloc malloc : allocator) (h : heap),
    exists stringPtr z mid,
      run native_stem halloc malloc (StemWord word) h =
        Some ((Marshal_StringToHGlobalAnsi word, stringPtr)
                :: (Native_create_stemmer, z)
                :: mid ++ [ (Marshal_FreeHGlobal stringPtr, 0);
                            (Native_free_stemmer z, 0) ],
              o, h)
      /\ (z ∉ stemmers h)
      /\ match word with
         | Some s =>
             stringPtr <> 0 /\ (stringPtr ∉ dom (hglobal h))
             /\ mid = [ (Native_stem z stringPtr (Z.of_nat (String.length s)),
                         newLen_of native_stem s) ]
         | None => stringPtr = 0 /\ mid = []
         end.
Proof.
  exists (StemWord_outcome native_stem word). intros halloc malloc h.
  destruct word as [s|].
  - eexists _, _, [_]. split; [by rewrite run_StemWord_Some|].
    split; [apply pick_fresh|].
    split; [apply pick_nonnull|]. split; [apply pick_fresh|done].
  - eexists _, _, []. split; [by rewrite run_StemWord_None|].
    split; [apply pick_fresh|done].
Qed.

(** C10. The native routine works on a copy: after two calls a block that
    was not live before holds the ANSI copy of the word; the third call,
    the native routine, changes that block and nothing else; after the
    fifth call the block is gone, the memory is as it was found, and what
    is returned is cut from the word itself. *)
Theorem StemWord_mutates_only_the_copy
    (native_stem : list byte -> Z -> list byte * Z)
    (halloc malloc : allocator) (s : string) (h : heap) :
  exists p z,
    let during (block : list byte) :=
      Heap (<[p := block]> (hglobal h)) ({[z]} ∪ stemmers h) in
    p <> 0 /\ (p ∉ dom (hglobal h))
    /\ (exists rest,
          steps native_stem halloc malloc 2 (StemWord (Some s)) h
          = Some (rest, during (marshalled s)))
    /\ (exists rest,
          steps native_stem halloc malloc 3 (StemWord (Some s)) h
          = Some (rest,
                  during (fst (native_stem (marshalled s)
                                 (Z.of_nat (String.length s))))))
    /\ steps native_stem halloc malloc 5 (StemWord (Some s)) h
       = Some (lift (Substring (Some s) 0 (newLen_of native_stem s)), h).
Proof.
  exists (pick halloc (dom (hglobal h))), (pick malloc (stemmers h)).
  set (p := pick halloc (dom (hglobal h))).
  set (z := pick malloc (stemmers h)).
  assert (Hp : p ∉ dom (hglobal h)) by apply pick_fresh.
  assert (Hz : z ∉ stemmers h) by apply pick_fresh.
  assert (Hnz : p <> 0) by apply pick_nonnull.
  cbv zeta. split; [done|]. split; [done|].
  split; [by eexists|].
  unfold StemWord, newLen_of. cbn -[Substring]. fold p z.
  rewrite decide_True by set_solver. rewrite lookup_insert_eq.
  destruct (native_stem (marshalled s) (Z.of_nat (String.length s)))
    as [buffer' n].
  cbn -[Substring]. rewrite insert_insert_eq.
  split; [by eexists|].
  destruct (Substring (Some s) 0 n); cbn;
    rewrite decide_False by done; rewrite lookup_insert_eq; cbn;
    rewrite decide_True by set_solver; cbn;
    by rewrite heap_restored.
Qed.

(** * Calls in progress side by side *)

(** The side conditions of one call: who holds what, before and after. *)
Ltac thread_side :=
  unfold thread_ok, owns_block, owns_stemmer in *; simpl in *;
  repeat split; intros;
  repeat match goal with H : _ /\ _ |- _ => destruct H end; subst;
  try done; try tauto; try (by auto); try lia;
  try (apply lookup_insert_eq);
  try (apply lookup_insert_ne; first [congruence | naive_solver]);
  try (apply lookup_delete_ne; first [congruence | naive_solver]);
  try (rewrite dom_insert_L);
  set_solver.

Section Concurrency.

Variable native_stem : list byte -> Z -> list byte * Z.
Variables halloc malloc : allocator.

(** A thread keeps what it relies on when the memory changes elsewhere. *)
Lemma thread_ok_frame (h h' : heap) (w : option string) (ph : phase) :
  (forall a, owns_block ph a -> hglobal h' !! a = hglobal h !! a) ->
  (forall a, owns_stemmer ph a -> a ∈ stemmers h -> a ∈ stemmers h') ->
  thread_ok h w ph -> thread_ok h' w ph.
Proof.
  intros Hb Hs (Hob & Hos & Hc). split; [|split].
  - intros a Ha. specialize (Hob a Ha). apply elem_of_dom.
    rewrite (Hb a Ha). by apply elem_of_dom.
  - intros a Ha. auto.
  - destruct ph as [|p|p z|p z|p z|p z], w as [s|]; try done;
      destruct Hc as [Hnz Hl]; (split; [done|]);
      rewrite Hb; [done | by split | done | by split].
Qed.

(** One call of a thread: it is defined, leads to the next phase, keeps
    what the thread relies on, changes no block and frees no context but
    the thread's own, and what the thread newly holds was not live. *)
Lemma thread_step (h : heap) (w : option string) (ph : phase) :
  thread_ok h w ph ->
  exists h' ph',
    step native_stem halloc malloc (residual native_stem w ph) h = Some (residual native_stem w ph', h')
    /\ thread_ok h' w ph'
    /\ (forall a, ~ owns_block ph a -> a ∈ dom (hglobal h) ->
          hglobal h' !! a = hglobal h !! a)
    /\ (forall a, ~ owns_stemmer ph a -> a ∈ stemmers h -> a ∈ stemmers h')
    /\ (forall a, owns_block ph' a ->
          owns_block ph a \/ a ∉ dom (hglobal h))
    /\ (forall a, owns_stemmer ph' a ->
          owns_stemmer ph a \/ a ∉ stemmers h)
    /\ (Nat.min 5 (S (rank ph)) <= rank ph')%nat.
Proof.
  intros (Hob & Hos & Hc).
  destruct ph as [|p|p z|p z|p z|p z], w as [s|]; try done.
  - (* Entered, a word: the copy is made *)
    set (p := pick halloc (dom (hglobal h))).
    assert (Hp : p ∉ dom (hglobal h)) by apply pick_fresh.
    assert (Hnz : p <> 0) by apply pick_nonnull.
    exists (Heap (<[p := marshalled s]> (hglobal h)) (stemmers h)),
           (Marshalled p).
    split; [done|]. clearbody p. thread_side.
  - (* Entered, nullptr: the null pointer comes back *)
    exists h, (Marshalled 0). split; [done|]. thread_side.
  - (* Marshalled, a word: the context is created *)
    destruct Hc as [Hnz Hl].
    set (z := pick malloc (stemmers h)).
    assert (Hz : z ∉ stemmers h) by apply pick_fresh.
    exists (Heap (hglobal h) ({[z]} ∪ stemmers h)), (InTry p z).
    split; [done|]. clearbody z. thread_side.
  - (* Marshalled, nullptr: the context is created, the try block left *)
    subst p.
    set (z := pick malloc (stemmers h)).
    assert (Hz : z ∉ stemmers h) by apply pick_fresh.
    exists (Heap (hglobal h) ({[z]} ∪ stemmers h)), (Leaving 0 z).
    split; [done|]. clearbody z. thread_side.
  - (* InTry: the native routine works on the block *)
    destruct Hc as [Hnz Hl].
    assert (Hz : z ∈ stemmers h) by (by apply Hos).
    exists (Heap (<[p := fst (native_stem (marshalled s)
                               (Z.of_nat (String.length s)))]> (hglobal h))
                 (stemmers h)), (Leaving p z).
    split.
    + unfold residual, history, resumes, StemWord, newLen_of.
      cbn -[Substring].
      rewrite decide_True by done. rewrite Hl.
      by destruct (native_stem _ _).
    + thread_side.
  - (* Leaving, a word: the block is freed *)
    assert (Hp : p ∈ dom (hglobal h)) by (by apply Hob).
    apply elem_of_dom in Hp as [b Hb].
    exists (Heap (delete p (hglobal h)) (stemmers h)), (Releasing p z).
    split.
    + unfold residual, history, resumes, StemWord.
      cbn -[Substring].
      destruct (Substring _ _ _); cbn;
        rewrite decide_False by done; by rewrite Hb.
    + thread_side.
  - (* Leaving, nullptr: nothing to free *)
    subst p. exists h, (Releasing 0 z). split; [done|]. thread_side.
  - (* Releasing, a word: the context is freed *)
    assert (Hz : z ∈ stemmers h) by (by apply Hos).
    exists (Heap (hglobal h) (stemmers h ∖ {[z]})), (Exited p z).
    split.
    + unfold residual, history, resumes, StemWord.
      cbn -[Substring].
      destruct (Substring _ _ _); cbn; by rewrite decide_True by done.
    + thread_side.
  - (* Releasing, nullptr *)
    assert (Hz : z ∈ stemmers h) by (by apply Hos).
    exists (Heap (hglobal h) (stemmers h ∖ {[z]})), (Exited p z).
    split.
    + unfold residual, history, resumes, StemWord. cbn.
      by rewrite decide_True by done.
    + thread_side.
  - (* Exited, a word *)
    exists h, (Exited p z). split; [|thread_side].
    unfold residual, history, resumes, StemWord. cbn -[Substring].
    by destruct (Substring _ _ _).
  - (* Exited, nullptr *)
    exists h, (Exited p z). split; [done|thread_side].
Qed.

(** Every thread of a pool that is in order holds live things only. *)
Lemma pool_ok_thread (h : heap) words phases pool (i : nat) (ph : phase) :
  pool_ok native_stem h words phases pool ->
  phases !! i = Some ph ->
  exists w, words !! i = Some w
            /\ pool !! i = Some (residual native_stem w ph)
            /\ thread_ok h w ph.
Proof.
  intros (Hlp & Hlq & Hth & Hdis) Hph.
  destruct (lookup_lt_is_Some_2 words i) as [w Hw].
  { rewrite <- Hlp. by eapply lookup_lt_Some. }
  exists w. split; [done|]. by apply Hth.
Qed.

(** One step of a schedule is defined and keeps the pool in order. *)
Lemma pool_step (h : heap) words phases pool (i : nat) :
  pool_ok native_stem h words phases pool ->
  exists h' phases' pool',
    sched_step native_stem halloc malloc i (h, pool) = Some (h', pool')
    /\ pool_ok native_stem h' words phases' pool'
    /\ (forall j, (j < length words)%nat ->
          (Nat.min 5 (progress phases j + (if decide (j = i) then 1 else 0))
           <= progress phases' j)%nat).
Proof.
  intros Hok. pose proof Hok as (Hlp & Hlq & Hth & Hdis).
  unfold sched_step; cbn [fst snd].
  destruct (pool !! i) as [q|] eqn:Hq.
  2:{ exists h, phases, pool. split; [done|]. split; [done|].
      intros j Hj. apply lookup_ge_None_1 in Hq.
      destruct (decide (j = i)); lia. }
  assert (Hi : (i < length phases)%nat).
  { rewrite Hlp, <- Hlq. by eapply lookup_lt_Some. }
  destruct (lookup_lt_is_Some_2 phases i Hi) as [ph Hph].
  destruct (pool_ok_thread h words phases pool i ph Hok Hph)
    as (w & Hw & Hres & Hthr).
  rewrite Hq in Hres. injection Hres as ->.
  destruct (thread_step h w ph Hthr)
    as (h' & ph' & Hstep & Hthr' & Hblk & Hctx & Hnewb & Hnewc & Hrank).
  rewrite Hstep.
  exists h', (<[i := ph']> phases), (<[i := residual native_stem w ph']> pool).
  split; [done|].
  split.
  2:{ intros j Hj. unfold progress. destruct (decide (j = i)) as [->|Hne].
      - rewrite list_lookup_insert_eq by done. rewrite Hph. lia.
      - rewrite list_lookup_insert_ne by done. lia. }
  split; [by rewrite length_insert|]. split; [by rewrite length_insert|].
  split.
  - intros j wj phj Hwj Hphj. destruct (decide (i = j)) as [<-|Hne].
    + rewrite list_lookup_insert_eq in Hphj by done.
      injection Hphj as <-. rewrite Hw in Hwj. injection Hwj as <-.
      split; [|done]. apply list_lookup_insert_eq. lia.
    + rewrite list_lookup_insert_ne in Hphj by done.
      rewrite list_lookup_insert_ne by done.
      destruct (Hth j wj phj Hwj Hphj) as [Hr Ho]. split; [done|].
      apply (thread_ok_frame h); [| |done].
      * intros a Ha. apply Hblk.
        -- by apply (proj1 (Hdis j i phj ph a (not_eq_sym Hne) Hphj Hph)).
        -- by apply Ho.
      * intros a Ha Hin. apply Hctx; [|done].
        by apply (proj2 (Hdis j i phj ph a (not_eq_sym Hne) Hphj Hph)).
  - intros j k phj phk a Hne Hj Hk.
    destruct (decide (i = j)) as [<-|Hij]; [|destruct (decide (i = k)) as [<-|Hik]].
    + rewrite list_lookup_insert_eq in Hj by done. injection Hj as <-.
      rewrite list_lookup_insert_ne in Hk by done.
      destruct (pool_ok_thread h words phases pool k phk Hok Hk)
        as (wk & _ & _ & Hobk & Hosk & _).
      split; intros Hown Hown'.
      * destruct (Hnewb a Hown) as [Hold|Hfresh].
        -- by apply (proj1 (Hdis i k ph phk a Hne Hph Hk)).
        -- by apply Hfresh, Hobk.
      * destruct (Hnewc a Hown) as [Hold|Hfresh].
        -- by apply (proj2 (Hdis i k ph phk a Hne Hph Hk)).
        -- by apply Hfresh, Hosk.
    + rewrite list_lookup_insert_eq in Hk by done. injection Hk as <-.
      rewrite list_lookup_insert_ne in Hj by done.
      destruct (pool_ok_thread h words phases pool j phj Hok Hj)
        as (wj & _ & _ & Hobj & Hosj & _).
      split; intros Hown Hown'.
      * destruct (Hnewb a Hown') as [Hold|Hfresh].
        -- by apply (proj1 (Hdis j i phj ph a Hne Hj Hph)).
        -- by apply Hfresh, Hobj.
      * destruct (Hnewc a Hown') as [Hold|Hfresh].
        -- by apply (proj2 (Hdis j i phj ph a Hne Hj Hph)).
        -- by apply Hfresh, Hosj.
    + rewrite list_lookup_insert_ne in Hj by done.
      rewrite list_lookup_insert_ne in Hk by done.
      by apply (Hdis j k).
Qed.

(** Threads that have just entered [StemWord] form a pool in order. *)
Lemma pool_ok_initial (h : heap) (words : list (option string)) :
  pool_ok native_stem h words
          (replicate (length words) Entered) (StemWord <$> words).
Proof.
  split; [by rewrite length_replicate|]. split; [by rewrite length_fmap|].
  split.
  - intros i w ph Hw Hph. apply lookup_replicate_1 in Hph as [-> _].
    rewrite list_lookup_fmap, Hw. split; [done|].
    split; [|split]; simpl; try done. by intros a [].
  - intros i j phi phj a _ Hi _. apply lookup_replicate_1 in Hi as [-> _].
    split; [by intros []|done].
Qed.

(** Under any schedule every call made is defined, the pool stays in
    order, and every turn of a thread is a call of it, up to its last. *)
Lemma interleave_ok (schedule : list nat) :
  forall (h : heap) words phases pool,
    pool_ok native_stem h words phases pool ->
    exists h' phases' pool',
      interleave native_stem halloc malloc schedule (h, pool)
      = Some (h', pool')
      /\ pool_ok native_stem h' words phases' pool'
      /\ (forall j, (j < length words)%nat ->
            (Nat.min 5 (progress phases j + count_occ Nat.eq_dec schedule j)
             <= progress phases' j)%nat).
Proof.
  induction schedule as [|i rest IH]; intros h words phases pool Hok.
  - exists h, phases, pool. split; [done|]. split; [done|].
    intros j _. cbn [count_occ]. lia.
  - destruct (pool_step h words phases pool i Hok)
      as (h1 & phases1 & pool1 & Hstep & Hok1 & Hturn).
    destruct (IH h1 words phases1 pool1 Hok1)
      as (h' & phases' & pool' & Hrun & Hok' & Hturns).
    exists h', phases', pool'. cbn [interleave]. rewrite Hstep.
    split; [done|]. split; [done|].
    intros j Hj. specialize (Hturn j Hj). specialize (Hturns j Hj).
    cbn [count_occ].
    destruct (Nat.eq_dec i j) as [->|Hne];
      destruct (decide (j = _)) as [Heq|Hneq] in Hturn; try done; lia.
Qed.

(** A thread that has finished has ended the way its word decides. *)
Lemma finished_residual (h : heap) (w : option string) (ph : phase)
    (o : outcome string) :
  thread_ok h w ph ->
  finished (residual native_stem w ph) = Some o ->
  o = StemWord_outcome native_stem w.
Proof.
  intros (_ & _ & Hc).
  unfold residual, history, resumes, StemWord, StemWord_outcome.
  destruct ph as [|p|p z|p z|p z|p z], w as [s|]; try done;
    cbn -[Substring]; try discriminate;
    try (destruct (Substring _ _ _); cbn; congruence).
  congruence.
Qed.

(** However the calls of a pool are interleaved, a thread that has
    finished has ended the way its word decides. *)
Lemma interleave_outcome (schedule : list nat) (h : heap)
    (words : list (option string)) c (i : nat) w q o :
  interleave native_stem halloc malloc schedule (h, StemWord <$> words)
  = Some c ->
  words !! i = Some w -> snd c !! i = Some q -> finished q = Some o ->
  o = StemWord_outcome native_stem w.
Proof.
  intros Hrun Hw Hq Ho.
  destruct (interleave_ok schedule h words _ _ (pool_ok_initial h words))
    as (h' & phases' & pool' & Hrun' & Hok & _).
  rewrite Hrun in Hrun'. injection Hrun' as ->. simpl in Hq.
  destruct Hok as (Hlp & Hlq & Hth & _).
  destruct (lookup_lt_is_Some_2 phases' i) as [ph Hph].
  { rewrite Hlp. by eapply lookup_lt_Some. }
  destruct (Hth i w ph Hw Hph) as [Hres Hthr].
  rewrite Hq in Hres. injection Hres as ->.
  by eapply finished_residual.
Qed.

(** No interleaving runs into a call without defined behaviour. *)
Lemma interleave_defined (schedule : list nat) (h : heap)
    (words : list (option string)) :
  is_Some (interleave native_stem halloc malloc schedule
             (h, StemWord <$> words)).
Proof.
  destruct (interleave_ok schedule h words _ _ (pool_ok_initial h words))
    as (h' & phases' & pool' & Hrun & _).
  by rewrite Hrun.
Qed.

Lemma residual_Exited (w : option string) (p z : Z) :
  finished (residual native_stem w (Exited p z))
  = Some (StemWord_outcome native_stem w).
Proof.
  unfold residual, history, resumes, StemWord, StemWord_outcome.
  destruct w as [s|]; cbn -[Substring]; [|done].
  by destruct (Substring _ _ _).
Qed.

(** A thread that has had five turns has finished, the way its word
    decides, whatever the other threads did in between. *)
Lemma interleave_finishes (schedule : list nat) (h : heap)
    (words : list (option string)) (i : nat) (w : option string) :
  words !! i = Some w ->
  (5 <= count_occ Nat.eq_dec schedule i)%nat ->
  exists c q,
    interleave native_stem halloc malloc schedule (h, StemWord <$> words)
    = Some c
    /\ snd c !! i = Some q
    /\ finished q = Some (StemWord_outcome native_stem w).
Proof.
  intros Hw Hturns.
  destruct (interleave_ok schedule h words _ _ (pool_ok_initial h words))
    as (h' & phases' & pool' & Hrun & Hok & Hprog).
  assert (Hi : (i < length words)%nat) by (by eapply lookup_lt_Some).
  specialize (Hprog i Hi). unfold progress in Hprog.
  rewrite lookup_replicate_2 in Hprog by done. cbn [rank] in Hprog.
  destruct (phases' !! i) as [ph|] eqn:Hph; [|lia].
  destruct Hok as (_ & _ & Hth & _).
  destruct (Hth i w ph Hw Hph) as [Hres _].
  exists (h', pool'), (residual native_stem w ph).
  split; [done|]. split; [done|].
  destruct ph; cbn [rank] in Hprog; try lia. apply residual_Exited.
Qed.

End Concurrency.

(** C6. Two calls on the same word end the same way: in one pool or in
    two, under any schedules, from any memories and with any allocation
    policies.  A call on its own, or calls one after the other, are the
    schedules that let a thread finish before the next one starts. *)
Theorem StemWord_deterministic
    (native_stem : list byte -> Z -> list byte * Z)
    (halloc1 malloc1 halloc2 malloc2 : allocator)
    (schedule1 schedule2 : list nat) (h1 h2 : heap)
    (words1 words2 : list (option string))
    (c1 c2 : heap * list (prog string))
    (i j : nat) (word : option string) (q1 q2 : prog string)
    (o1 o2 : outcome string) :
  interleave native_stem halloc1 malloc1 schedule1 (h1, StemWord <$> words1)
  = Some c1 ->
  interleave native_stem halloc2 malloc2 schedule2 (h2, StemWord <$> words2)
  = Some c2 ->
  words1 !! i = Some word -> words2 !! j = Some word ->
  snd c1 !! i = Some q1 -> snd c2 !! j = Some q2 ->
  finished q1 = Some o1 -> finished q2 = Some o2 ->
  o1 = o2.
Proof.
  intros Hrun1 Hrun2 Hw1 Hw2 Hq1 Hq2 Ho1 Ho2.
  rewrite (interleave_outcome _ _ _ _ _ _ _ _ _ _ _ Hrun1 Hw1 Hq1 Ho1).
  by rewrite (interleave_outcome _ _ _ _ _ _ _ _ _ _ _ Hrun2 Hw2 Hq2 Ho2).
Qed.

(** The theorem at work: "agreed" is stemmed in a pool of two threads over
    an empty memory and in a pool of three over a memory in use, under two
    different schedules. *)
Lemma StemWord_deterministic_witness :
  exists c1 c2 q1 q2,
    interleave Porter.stem lowest_free lowest_free
      [0; 1; 0; 1; 1; 0; 0; 1; 0; 1]%nat
      (Heap ∅ ∅, StemWord <$> [Some "agreed"; Some "feed"]%string)
    = Some c1
    /\ interleave Porter.stem lowest_free lowest_free
         [2; 2; 1; 0; 2; 1; 2; 0; 2; 1; 1]%nat
         (Heap {[ 7 := bytes "busy" ]} {[ 1 ]},
          StemWord <$> [Some "feed"; None; Some "agreed"]%string)
       = Some c2
    /\ snd c1 !! 0%nat = Some q1 /\ snd c2 !! 2%nat = Some q2
    /\ finished q1 = Some (Returned "agre"%string)
    /\ finished q2 = Some (Returned "agre"%string)
    /\ @Returned string "agre"%string = Returned "agre"%string.
Proof.
  eexists _, _, _, _.
  split; [vm_compute; reflexivity|].
  split; [vm_compute; reflexivity|].
  split; [reflexivity|]. split; [reflexivity|].
  split; [reflexivity|]. split; [reflexivity|].
  eapply (StemWord_deterministic Porter.stem
            lowest_free lowest_free lowest_free lowest_free
            [0; 1; 0; 1; 1; 0; 0; 1; 0; 1]%nat
            [2; 2; 1; 0; 2; 1; 2; 0; 2; 1; 1]%nat
            (Heap ∅ ∅) (Heap {[ 7 := bytes "busy" ]} {[ 1 ]})
            [Some "agreed"; Some "feed"]%string
            [Some "feed"; None; Some "agreed"]%string
            _ _ 0%nat 2%nat (Some "agreed"%string));
    try (vm_compute; reflexivity); reflexivity.
Defined.

(** * Further properties of a call on its own *)

Lemma string_length_append (a b : string) :
  String.length (a ++ b) = (String.length a + String.length b)%nat.
Proof.
  induction a as [|c a IH]; [done|].
  change (S (String.length (a ++ b)) = S (String.length a + String.length b)).
  by rewrite IH.
Qed.

Lemma string_append_assoc (a b c : string) :
  ((a ++ b) ++ c = a ++ (b ++ c))%string.
Proof.
  induction a as [|x a IH]; [done|].
  change (String x ((a ++ b) ++ c) = String x (a ++ (b ++ c)))%string.
  by rewrite IH.
Qed.

Lemma string_append_empty_r (a : string) : (a ++ "")%string = a.
Proof.
  induction a as [|x a IH]; [done|].
  change (String x (a ++ "") = String x a)%string. by rewrite IH.
Qed.

(** A prefix as long as the string is the string. *)
Lemma prefix_full_length (s r rest : string) :
  s = (r ++ rest)%string -> String.length r = String.length s -> r = s.
Proof.
  intros Hs Hlen. rewrite Hs, string_length_append in Hlen.
  destruct rest as [|c rest]; [|simpl in Hlen; lia].
  by rewrite Hs, string_append_empty_r.
Qed.


(** The statements of a program made one after the other: the second runs
    in the memory the first has left, and is skipped when the first
    throws. *)
Lemma run_bind {A B} (native_stem : list byte -> Z -> list byte * Z)
    (halloc malloc : allocator) (p : prog A) (f : A -> prog B) :
  forall h : heap,
    run native_stem halloc malloc (bind p f) h =
      match run native_stem halloc malloc p h with
      | Some (evs1, Returned a, h1) =>
          match run native_stem halloc malloc (f a) h1 with
          | Some (evs2, o, h2) => Some (evs1 ++ evs2, o, h2)
          | None => None
          end
      | Some (evs1, Thrown e, h1) => Some (evs1, Thrown e, h1)
      | None => None
      end.
Proof.
  induction p as [a|e|op k IH]; intros h; simpl.
  - by destruct (run _ _ _ (f a) h) as [[[evs2 o] h2]|].
  - done.
  - destruct (perform native_stem halloc malloc op h) as [[v h1]|]; [|done].
    rewrite IH.
    destruct (run native_stem halloc malloc (k v) h1)
      as [[[evs1 [a|e]] h2]|]; [|done..].
    by destruct (run _ _ _ (f a) h2) as [[[evs2 o] h3]|].
Qed.

(** X1. A call on a word ends in the range error of [Substring] exactly
    when the length the native routine reports is negative or exceeds the
    length of the word; the block and the context have been released by
    then and the memory is as it was found. *)
Theorem StemWord_range_error_iff
    (native_stem : list byte -> Z -> list byte * Z)
    (halloc malloc : allocator) (s : string) (h : heap) :
  (exists evs,
     run native_stem halloc malloc (StemWord (Some s)) h
     = Some (evs, Thrown ArgumentOutOfRangeException, h))
  <-> (newLen_of native_stem s < 0
       \/ Z.of_nat (String.length s) < newLen_of native_stem s).
Proof.
  rewrite run_StemWord_Some. unfold StemWord_outcome.
  pose proof (Substring_0_spec s (newLen_of native_stem s)) as Hs.
  destruct (Substring (Some s) 0 (newLen_of native_stem s)) as [r|e].
  - destruct Hs as (Hn & _). split; [|lia].
    intros [evs H]. discriminate H.
  - destruct Hs as [-> Hn]. split; [lia|]. intros _. by eexists.
Qed.

(** A native routine that reports one more than it was given makes every
    call end in the range error. *)
Example StemWord_range_error_sample (s : string) :
  exists evs,
    run (fun b k => (b, k + 1)) lowest_free lowest_free
        (StemWord (Some s)) (Heap ∅ ∅)
    = Some (evs, Thrown ArgumentOutOfRangeException, Heap ∅ ∅).
Proof.
  apply StemWord_range_error_iff. right. unfold newLen_of. simpl. lia.
Qed.

(** X2. The string a call returns has exactly as many characters as the
    native routine reported, and is made of the first characters of the
    word. *)
Theorem StemWord_result_length
    (native_stem : list byte -> Z -> list byte * Z)
    (halloc malloc : allocator) (s r : string) (h h' : heap) evs :
  run native_stem halloc malloc (StemWord (Some s)) h
  = Some (evs, Returned r, h') ->
  Z.of_nat (String.length r) = newLen_of native_stem s
  /\ r = substring 0 (Z.to_nat (newLen_of native_stem s)) s.
Proof.
  rewrite run_StemWord_Some. unfold StemWord_outcome. intros H.
  pose proof (Substring_0_spec s (newLen_of native_stem s)) as Hs.
  assert (Hr : Substring (Some s) 0 (newLen_of native_stem s) = Returned r)
    by congruence.
  rewrite Hr in Hs. destruct Hs as (Hn & _ & Hlen). split; [done|].
  unfold Substring in Hr. destruct (_ || _); [discriminate|].
  by injection Hr as <-.
Qed.

(** The theorem at work on "ponies", of which four characters are kept. *)
Lemma StemWord_result_length_witness :
  Z.of_nat (String.length "poni") = newLen_of Porter.stem "ponies"
  /\ "poni"%string
     = substring 0 (Z.to_nat (newLen_of Porter.stem "ponies")) "ponies".
Proof.
  eapply (StemWord_result_length Porter.stem lowest_free lowest_free
            "ponies" "poni" (Heap ∅ ∅)).
  rewrite run_StemWord_Some. reflexivity.
Defined.

(** X3. A call hands the word back unchanged exactly when the native
    routine reports the full length of the word. *)
Theorem StemWord_unchanged_iff
    (native_stem : list byte -> Z -> list byte * Z)
    (halloc malloc : allocator) (s : string) (h : heap) :
  (exists evs,
     run native_stem halloc malloc (StemWord (Some s)) h
     = Some (evs, Returned s, h))
  <-> newLen_of native_stem s = Z.of_nat (String.length s).
Proof.
  rewrite run_StemWord_Some. unfold StemWord_outcome.
  pose proof (Substring_0_spec s (newLen_of native_stem s)) as Hs.
  destruct (Substring (Some s) 0 (newLen_of native_stem s)) as [r|e].
  - destruct Hs as (Hn & [rest Hrest] & Hlen). split.
    + intros [evs H]. assert (r = s) as -> by congruence. lia.
    + intros Hfull. eexists.
      rewrite (prefix_full_length s r rest Hrest); [done|lia].
  - destruct Hs as [-> Hn]. split.
    + intros [evs H]. discriminate H.
    + intros Hfull. lia.
Qed.

(** X4. What the native routine writes into the buffer is never read back:
    two native routines that report the same length for a word make the
    call end the same way, whatever each of them leaves in the buffer. *)
Theorem StemWord_ignores_buffer
    (native1 native2 : list byte -> Z -> list byte * Z)
    (halloc1 malloc1 halloc2 malloc2 : allocator)
    (s : string) (h1 h2 : heap) :
  newLen_of native1 s = newLen_of native2 s ->
  exists o evs1 evs2,
    run native1 halloc1 malloc1 (StemWord (Some s)) h1 = Some (evs1, o, h1)
    /\ run native2 halloc2 malloc2 (StemWord (Some s)) h2
       = Some (evs2, o, h2).
Proof.
  intros Hlen. exists (StemWord_outcome native1 (Some s)).
  eexists _, _. split; [apply run_StemWord_Some|].
  rewrite run_StemWord_Some. unfold StemWord_outcome. by rewrite Hlen.
Qed.

(** The theorem at work on "happy": the stemming routine, which turns the
    "y" into an "i", and a routine that reports the same length and fills
    the buffer with "x". *)
Lemma StemWord_ignores_buffer_witness :
  exists o evs1 evs2,
    run Porter.stem lowest_free lowest_free
        (StemWord (Some "happy"%string)) (Heap ∅ ∅)
    = Some (evs1, o, Heap ∅ ∅)
    /\ run (fun b k => (repeat "x"%byte (length b), snd (Porter.stem b k)))
           lowest_free lowest_free
           (StemWord (Some "happy"%string)) (Heap ∅ ∅)
       = Some (evs2, o, Heap ∅ ∅).
Proof.
  apply (StemWord_ignores_buffer Porter.stem
           (fun b k => (repeat "x"%byte (length b), snd (Porter.stem b k)))
           lowest_free lowest_free lowest_free lowest_free
           "happy"%string (Heap ∅ ∅) (Heap ∅ ∅)).
  reflexivity.
Defined.

(** X5. Stemming the result of a call again: the two calls made one after
    the other leave the memory as it was found, and what the second
    returns is again a prefix of the word the first was given, no longer
    than it; the only other ending is the range error. *)
Theorem StemWord_twice
    (native_stem : list byte -> Z -> list byte * Z)
    (halloc malloc : allocator) (word : string) (h : heap) :
  exists evs o,
    run native_stem halloc malloc
        (let! r := StemWord (Some word) in StemWord (Some r)) h
    = Some (evs, o, h)
    /\ match o with
       | Returned r2 =>
           (exists rest, word = (r2 ++ rest)%string)
           /\ (String.length r2 <= String.length word)%nat
       | Thrown e => e = ArgumentOutOfRangeException
       end.
Proof.
  rewrite run_bind, run_StemWord_Some. unfold StemWord_outcome at 1.
  pose proof (Substring_0_spec word (newLen_of native_stem word)) as H1.
  destruct (Substring (Some word) 0 (newLen_of native_stem word))
    as [r1|e1]; [|eexists _, _; split; [done|tauto]].
  destruct H1 as (Hn1 & [rest1 Hrest1] & Hlen1).
  rewrite run_StemWord_Some. unfold StemWord_outcome.
  pose proof (Substring_0_spec r1 (newLen_of native_stem r1)) as H2.
  destruct (Substring (Some r1) 0 (newLen_of native_stem r1))
    as [r2|e2]; eexists _, _; (split; [done|]); [|tauto].
  destruct H2 as (Hn2 & [rest2 Hrest2] & Hlen2). split; [|lia].
  exists (rest2 ++ rest1)%string.
  by rewrite <- string_append_assoc, <- Hrest2.
Qed.


(** * Further properties of calls in progress side by side *)

(** The side conditions of one call, with what it leaves of the memory. *)
Ltac thread_side_full :=
  unfold thread_ok, owns_block, owns_stemmer in *; simpl in *;
  repeat split; intros;
  repeat match goal with H : _ /\ _ |- _ => destruct H end; subst;
  try done; try tauto; try (by auto); try lia;
  try (by intuition congruence);
  try (apply lookup_insert_eq);
  try (apply lookup_delete_eq);
  try (apply lookup_insert_ne; by intuition congruence);
  try (apply lookup_delete_ne; by intuition congruence);
  try (rewrite dom_insert_L);
  first [set_solver | naive_solver].

Lemma owns_block_dec (ph : phase) (a : Z) :
  owns_block ph a \/ ~ owns_block ph a.
Proof.
  unfold owns_block. destruct (decide (a = 0)) as [->|Hnz]; [naive_solver|].
  destruct ph as [|p|p z|p z|p z|p z]; try naive_solver;
    destruct (decide (a = p)); naive_solver.
Qed.

Lemma owns_stemmer_dec (ph : phase) (a : Z) :
  owns_stemmer ph a \/ ~ owns_stemmer ph a.
Proof.
  unfold owns_stemmer.
  destruct ph as [|p|p z|p z|p z|p z]; try naive_solver;
    destruct (decide (a = z)); naive_solver.
Qed.

(** Who holds something once thread [i] has moved to a new phase. *)
Lemma held_after_step (P : phase -> Z -> Prop) (phases : list phase)
    (i : nat) (ph' : phase) (a : Z) :
  (i < length phases)%nat ->
  (exists j phj, <[i := ph']> phases !! j = Some phj /\ P phj a)
  <-> P ph' a
      \/ exists j phj, j <> i /\ phases !! j = Some phj /\ P phj a.
Proof.
  intros Hi. split.
  - intros (j & phj & Hj & HP). destruct (decide (i = j)) as [<-|Hne].
    + rewrite list_lookup_insert_eq in Hj by done. injection Hj as <-.
      by left.
    + rewrite list_lookup_insert_ne in Hj by done. right.
      by exists j, phj.
  - intros [HP|(j & phj & Hne & Hj & HP)].
    + exists i, ph'. by rewrite list_lookup_insert_eq.
    + exists j, phj. by rewrite list_lookup_insert_ne.
Qed.

Section ConcurrencyMemory.

Variable native_stem : list byte -> Z -> list byte * Z.
Variables halloc malloc : allocator.

(** One call of a thread, with all it does to the memory: beside what
    [thread_step] says, nothing changes at an address the thread holds
    neither before nor after, and what the thread lets go is gone. *)
Lemma thread_step_full (h : heap) (w : option string) (ph : phase) :
  thread_ok h w ph ->
  exists h' ph',
    step native_stem halloc malloc (residual native_stem w ph) h
    = Some (residual native_stem w ph', h')
    /\ thread_ok h' w ph'
    /\ (forall a, ~ owns_block ph a -> a ∈ dom (hglobal h) ->
          hglobal h' !! a = hglobal h !! a)
    /\ (forall a, ~ owns_stemmer ph a -> a ∈ stemmers h -> a ∈ stemmers h')
    /\ (forall a, owns_block ph' a ->
          owns_block ph a \/ a ∉ dom (hglobal h))
    /\ (forall a, owns_stemmer ph' a ->
          owns_stemmer ph a \/ a ∉ stemmers h)
    /\ (Nat.min 5 (S (rank ph)) <= rank ph')%nat
    /\ (forall a, ~ owns_block ph a -> ~ owns_block ph' a ->
          hglobal h' !! a = hglobal h !! a)
    /\ (forall a, ~ owns_stemmer ph a -> ~ owns_stemmer ph' a ->
          (a ∈ stemmers h' <-> a ∈ stemmers h))
    /\ (forall a, owns_block ph a -> ~ owns_block ph' a ->
          hglobal h' !! a = None)
    /\ (forall a, owns_stemmer ph a -> ~ owns_stemmer ph' a ->
          a ∉ stemmers h').
Proof.
  intros (Hob & Hos & Hc).
  destruct ph as [|p|p z|p z|p z|p z], w as [s|]; try done.
  - set (p := pick halloc (dom (hglobal h))).
    assert (Hp : p ∉ dom (hglobal h)) by apply pick_fresh.
    assert (Hnz : p <> 0) by apply pick_nonnull.
    exists (Heap (<[p := marshalled s]> (hglobal h)) (stemmers h)),
           (Marshalled p).
    split; [done|]. clearbody p. thread_side_full.
  - exists h, (Marshalled 0). split; [done|]. thread_side_full.
  - destruct Hc as [Hnz Hl].
    set (z := pick malloc (stemmers h)).
    assert (Hz : z ∉ stemmers h) by apply pick_fresh.
    exists (Heap (hglobal h) ({[z]} ∪ stemmers h)), (InTry p z).
    split; [done|]. clearbody z. thread_side_full.
  - subst p.
    set (z := pick malloc (stemmers h)).
    assert (Hz : z ∉ stemmers h) by apply pick_fresh.
    exists (Heap (hglobal h) ({[z]} ∪ stemmers h)), (Leaving 0 z).
    split; [done|]. clearbody z. thread_side_full.
  - destruct Hc as [Hnz Hl].
    assert (Hz : z ∈ stemmers h) by (by apply Hos).
    exists (Heap (<[p := fst (native_stem (marshalled s)
                               (Z.of_nat (String.length s)))]> (hglobal h))
                 (stemmers h)), (Leaving p z).
    split.
    + unfold residual, history, resumes, StemWord, newLen_of.
      cbn -[Substring].
      rewrite decide_True by done. rewrite Hl.
      by destruct (native_stem _ _).
    + thread_side_full.
  - assert (Hp : p ∈ dom (hglobal h)) by (by apply Hob).
    apply elem_of_dom in Hp as [b Hb].
    exists (Heap (delete p (hglobal h)) (stemmers h)), (Releasing p z).
    split.
    + unfold residual, history, resumes, StemWord.
      cbn -[Substring].
      destruct (Substring _ _ _); cbn;
        rewrite decide_False by done; by rewrite Hb.
    + thread_side_full.
  - subst p. exists h, (Releasing 0 z). split; [done|]. thread_side_full.
  - assert (Hz : z ∈ stemmers h) by (by apply Hos).
    exists (Heap (hglobal h) (stemmers h ∖ {[z]})), (Exited p z).
    split.
    + unfold residual, history, resumes, StemWord.
      cbn -[Substring].
      destruct (Substring _ _ _); cbn; by rewrite decide_True by done.
    + thread_side_full.
  - assert (Hz : z ∈ stemmers h) by (by apply Hos).
    exists (Heap (hglobal h) (stemmers h ∖ {[z]})), (Exited p z).
    split.
    + unfold residual, history, resumes, StemWord. cbn.
      by rewrite decide_True by done.
    + thread_side_full.
  - exists h, (Exited p z). split; [|thread_side_full].
    unfold residual, history, resumes, StemWord. cbn -[Substring].
    by destruct (Substring _ _ _).
  - exists h, (Exited p z). split; [done|thread_side_full].
Qed.

(** One step of a schedule, with the account of the memory kept. *)
Lemma pool_step_full (h0 h : heap) words phases pool (i : nat) :
  pool_ok native_stem h words phases pool ->
  accounted h0 h phases ->
  exists h' phases' pool',
    sched_step native_stem halloc malloc i (h, pool) = Some (h', pool')
    /\ pool_ok native_stem h' words phases' pool'
    /\ accounted h0 h' phases'
    /\ (forall j, (j < length words)%nat ->
          (Nat.min 5 (progress phases j + (if decide (j = i) then 1 else 0))
           <= progress phases' j)%nat).
Proof.
  intros Hok Hacc. pose proof Hok as (Hlp & Hlq & Hth & Hdis).
  unfold sched_step; cbn [fst snd].
  destruct (pool !! i) as [q|] eqn:Hq.
  2:{ exists h, phases, pool. split; [done|]. split; [done|].
      split; [done|].
      intros j Hj. apply lookup_ge_None_1 in Hq.
      destruct (decide (j = i)); lia. }
  assert (Hi : (i < length phases)%nat).
  { rewrite Hlp, <- Hlq. by eapply lookup_lt_Some. }
  destruct (lookup_lt_is_Some_2 phases i Hi) as [ph Hph].
  destruct (pool_ok_thread native_stem h words phases pool i ph Hok Hph)
    as (w & Hw & Hres & Hthr).
  rewrite Hq in Hres. injection Hres as ->.
  destruct (thread_step_full h w ph Hthr)
    as (h' & ph' & Hstep & Hthr' & Hblk & Hctx & Hnewb & Hnewc & Hrank
        & Hsameb & Hsamec & Hgoneb & Hgonec).
  rewrite Hstep.
  exists h', (<[i := ph']> phases), (<[i := residual native_stem w ph']> pool).
  split; [done|].
  (* the other threads hold what thread [i] does not *)
  assert (Hothers_b : forall a j phj, j <> i -> phases !! j = Some phj ->
            owns_block phj a -> ~ owns_block ph a /\ ~ owns_block ph' a).
  { intros a j phj Hne Hj Hown.
    destruct (Hdis j i phj ph a Hne Hj Hph) as [Hb _].
    split; [by apply Hb|]. intros Hown'.
    destruct (Hnewb a Hown') as [Hold|Hfresh]; [by apply Hb|].
    destruct (pool_ok_thread native_stem h words phases pool j phj Hok Hj)
      as (wj & _ & _ & Hobj & _). by apply Hfresh, Hobj. }
  assert (Hothers_c : forall a j phj, j <> i -> phases !! j = Some phj ->
            owns_stemmer phj a ->
            ~ owns_stemmer ph a /\ ~ owns_stemmer ph' a).
  { intros a j phj Hne Hj Hown.
    destruct (Hdis j i phj ph a Hne Hj Hph) as [_ Hc].
    split; [by apply Hc|]. intros Hown'.
    destruct (Hnewc a Hown') as [Hold|Hfresh]; [by apply Hc|].
    destruct (pool_ok_thread native_stem h words phases pool j phj Hok Hj)
      as (wj & _ & _ & _ & Hosj & _). by apply Hfresh, Hosj. }
  split; [|split].
  - (* the pool stays in order *)
    split; [by rewrite length_insert|]. split; [by rewrite length_insert|].
    split.
    + intros j wj phj Hwj Hphj. destruct (decide (i = j)) as [<-|Hne].
      * rewrite list_lookup_insert_eq in Hphj by done.
        injection Hphj as <-. rewrite Hw in Hwj. injection Hwj as <-.
        split; [|done]. apply list_lookup_insert_eq. lia.
      * rewrite list_lookup_insert_ne in Hphj by done.
        rewrite list_lookup_insert_ne by done.
        destruct (Hth j wj phj Hwj Hphj) as [Hr Ho]. split; [done|].
        apply (thread_ok_frame h); [| |done].
        -- intros a Ha. apply Hblk; [|by apply Ho].
           by apply (Hothers_b a j phj).
        -- intros a Ha Hin. apply Hctx; [|done].
           by apply (Hothers_c a j phj).
    + intros j k phj phk a Hne Hj Hk.
      destruct (decide (i = j)) as [<-|Hij];
        [|destruct (decide (i = k)) as [<-|Hik]].
      * rewrite list_lookup_insert_eq in Hj by done. injection Hj as <-.
        rewrite list_lookup_insert_ne in Hk by done.
        split; intros Hown Hown'.
        -- by apply (Hothers_b a k phk).
        -- by apply (Hothers_c a k phk).
      * rewrite list_lookup_insert_eq in Hk by done. injection Hk as <-.
        rewrite list_lookup_insert_ne in Hj by done.
        split; intros Hown Hown'.
        -- by apply (Hothers_b a j phj).
        -- by apply (Hothers_c a j phj).
      * rewrite list_lookup_insert_ne in Hj by done.
        rewrite list_lookup_insert_ne in Hk by done.
        by apply (Hdis j k).
  - (* the account of the memory is kept *)
    destruct Hacc as (Hfree_b & Hfree_c & Hnew_b & Hnew_c).
    unfold accounted, held_block, held_stemmer.
    split; [|split; [|split]]; intros a; rewrite held_after_step by done.
    + intros Hnot.
      assert (Hnow : ~ owns_block ph' a) by tauto.
      destruct (owns_block_dec ph a) as [Hwas|Hwas].
      * rewrite (Hgoneb a Hwas Hnow). symmetry. apply not_elem_of_dom.
        apply Hnew_b. by exists i, ph.
      * rewrite (Hsameb a Hwas Hnow). apply Hfree_b.
        intros (j & phj & Hj & Hown). destruct (decide (j = i)) as [->|Hne].
        -- rewrite Hph in Hj. by injection Hj as <-.
        -- apply Hnot. right. by exists j, phj.
    + intros Hnot.
      assert (Hnow : ~ owns_stemmer ph' a) by tauto.
      destruct (owns_stemmer_dec ph a) as [Hwas|Hwas].
      * split.
        -- intros Hin. by destruct (Hgonec a Hwas Hnow).
        -- intros Hin. destruct (Hnew_c a); [by exists i, ph|done].
      * rewrite (Hsamec a Hwas Hnow). apply Hfree_c.
        intros (j & phj & Hj & Hown). destruct (decide (j = i)) as [->|Hne].
        -- rewrite Hph in Hj. by injection Hj as <-.
        -- apply Hnot. right. by exists j, phj.
    + intros [Hown|(j & phj & Hne & Hj & Hown)].
      * destruct (Hnewb a Hown) as [Hold|Hfresh].
        -- apply Hnew_b. by exists i, ph.
        -- intros Hin0. apply Hfresh. apply elem_of_dom.
           destruct (owns_block_dec ph a) as [Hwas|Hwas].
           { destruct (Hnew_b a); [by exists i, ph|done]. }
           rewrite Hfree_b; [by apply elem_of_dom|].
           intros (j & phj & Hj & Hown'). apply (Hnew_b a); [|done].
           by exists j, phj.
      * apply Hnew_b. by exists j, phj.
    + intros [Hown|(j & phj & Hne & Hj & Hown)].
      * destruct (Hnewc a Hown) as [Hold|Hfresh].
        -- apply Hnew_c. by exists i, ph.
        -- intros Hin0. apply Hfresh.
           destruct (owns_stemmer_dec ph a) as [Hwas|Hwas].
           { destruct (Hnew_c a); [by exists i, ph|done]. }
           apply Hfree_c; [|done].
           intros (j & phj & Hj & Hown'). apply (Hnew_c a); [|done].
           by exists j, phj.
      * apply Hnew_c. by exists j, phj.
  - intros j Hj. unfold progress. destruct (decide (j = i)) as [->|Hne].
    + rewrite list_lookup_insert_eq by done. rewrite Hph. lia.
    + rewrite list_lookup_insert_ne by done. lia.
Qed.

(** A whole schedule, with the account of the memory kept. *)
Lemma interleave_full (schedule : list nat) (h0 : heap) :
  forall (h : heap) words phases pool,
    pool_ok native_stem h words phases pool ->
    accounted h0 h phases ->
    exists h' phases' pool',
      interleave native_stem halloc malloc schedule (h, pool)
      = Some (h', pool')
      /\ pool_ok native_stem h' words phases' pool'
      /\ accounted h0 h' phases'
      /\ (forall j, (j < length words)%nat ->
            (Nat.min 5 (progress phases j + count_occ Nat.eq_dec schedule j)
             <= progress phases' j)%nat).
Proof.
  induction schedule as [|i rest IH]; intros h words phases pool Hok Hacc.
  - exists h, phases, pool. split; [done|]. split; [done|]. split; [done|].
    intros j _. cbn [count_occ]. lia.
  - destruct (pool_step_full h0 h words phases pool i Hok Hacc)
      as (h1 & phases1 & pool1 & Hstep & Hok1 & Hacc1 & Hturn).
    destruct (IH h1 words phases1 pool1 Hok1 Hacc1)
      as (h' & phases' & pool' & Hrun & Hok' & Hacc' & Hturns).
    exists h', phases', pool'. cbn [interleave]. rewrite Hstep.
    split; [done|]. split; [done|]. split; [done|].
    intros j Hj. specialize (Hturn j Hj). specialize (Hturns j Hj).
    cbn [count_occ].
    destruct (Nat.eq_dec i j) as [->|Hne];
      destruct (decide (j = _)) as [Heq|Hneq] in Hturn; try done; lia.
Qed.

(** Before any thread has made a call, nothing is held. *)
Lemma accounted_initial (h : heap) (n : nat) :
  accounted h h (replicate n Entered).
Proof.
  assert (Hb : forall a, ~ held_block (replicate n Entered) a).
  { intros a (i & ph & Hi & Hown).
    apply lookup_replicate_1 in Hi as [-> _]. by destruct Hown. }
  assert (Hc : forall a, ~ held_stemmer (replicate n Entered) a).
  { intros a (i & ph & Hi & Hown).
    by apply lookup_replicate_1 in Hi as [-> _]. }
  split; [done|]. split; [done|].
  split; intros a Hheld; [by destruct (Hb a)|by destruct (Hc a)].
Qed.

(** The pool of calls on [words], started in [h], after any schedule. *)
Lemma interleave_StemWord (schedule : list nat) (h : heap)
    (words : list (option string)) :
  exists h' phases' pool',
    interleave native_stem halloc malloc schedule (h, StemWord <$> words)
    = Some (h', pool')
    /\ pool_ok native_stem h' words phases' pool'
    /\ accounted h h' phases'
    /\ (forall j, (j < length words)%nat ->
          (Nat.min 5 (count_occ Nat.eq_dec schedule j)
           <= progress phases' j)%nat).
Proof.
  destruct (interleave_full schedule h h words _ _
              (pool_ok_initial native_stem h words)
              (accounted_initial h (length words)))
    as (h' & phases' & pool' & Hrun & Hok & Hacc & Hprog).
  exists h', phases', pool'. split; [done|]. split; [done|].
  split; [done|]. intros j Hj. specialize (Hprog j Hj).
  unfold progress in Hprog at 1.
  by rewrite lookup_replicate_2 in Hprog by done.
Qed.

End ConcurrencyMemory.

(** X7. Calls in progress side by side never make a call without defined
    behaviour: under no schedule does a thread hand the native routine a
    block or a context that is not live, or free one twice. *)
Theorem StemWord_interleaving_defined
    (native_stem : list byte -> Z -> list byte * Z)
    (halloc malloc : allocator) (schedule : list nat) (h : heap)
    (words : list (option string)) :
  is_Some (interleave native_stem halloc malloc schedule
             (h, StemWord <$> words)).
Proof.
  destruct (interleave_StemWord native_stem halloc malloc schedule h words)
    as (h' & phases' & pool' & Hrun & _).
  by rewrite Hrun.
Qed.

(** X8. No call waits for another: a thread that has had five turns has
    finished, the way its word decides, whatever the other threads have
    done in between. *)
Theorem StemWord_wait_free
    (native_stem : list byte -> Z -> list byte * Z)
    (halloc malloc : allocator) (schedule : list nat) (h : heap)
    (words : list (option string)) (i : nat) (w : option string) :
  words !! i = Some w ->
  (5 <= count_occ Nat.eq_dec schedule i)%nat ->
  exists c q,
    interleave native_stem halloc malloc schedule (h, StemWord <$> words)
    = Some c
    /\ snd c !! i = Some q
    /\ finished q = Some (StemWord_outcome native_stem w).
Proof.
  intros Hw Hturns.
  destruct (interleave_StemWord native_stem halloc malloc schedule h words)
    as (h' & phases' & pool' & Hrun & Hok & _ & Hprog).
  assert (Hi : (i < length words)%nat) by (by eapply lookup_lt_Some).
  specialize (Hprog i Hi). unfold progress in Hprog.
  destruct (phases' !! i) as [ph|] eqn:Hph; [|lia].
  destruct Hok as (_ & _ & Hth & _).
  destruct (Hth i w ph Hw Hph) as [Hres _].
  exists (h', pool'), (residual native_stem w ph).
  split; [done|]. split; [done|].
  destruct ph; cbn [rank] in Hprog; try lia. apply residual_Exited.
Qed.

(** The theorem at work: thread 1 of three has its five turns among those
    of the others and returns "poni" while they are still on their way. *)
Lemma StemWord_wait_free_witness :
  exists c q,
    interleave Porter.stem lowest_free lowest_free
      [0; 1; 2; 1; 1; 0; 1; 2; 1]%nat
      (Heap ∅ ∅,
       StemWord <$> [Some "agreed"; Some "ponies"; None]%string)
    = Some c
    /\ snd c !! 1%nat = Some q
    /\ finished q = Some (StemWord_outcome Porter.stem (Some "ponies"%string)).
Proof.
  apply (StemWord_wait_free Porter.stem lowest_free lowest_free
           [0; 1; 2; 1; 1; 0; 1; 2; 1]%nat (Heap ∅ ∅)
           [Some "agreed"; Some "ponies"; None]%string 1%nat
           (Some "ponies"%string)).
  - reflexivity.
  - vm_compute. lia.
Defined.

(** X9. Calls in progress never touch what was there before them: at every
    point of every schedule, each block that was live when the pool
    started is live with the contents it had, and each context that was
    live is live. *)
Theorem StemWord_interleaving_frame
    (native_stem : list byte -> Z -> list byte * Z)
    (halloc malloc : allocator) (schedule : list nat) (h : heap)
    (words : list (option string)) (c : heap * list (prog string)) :
  interleave native_stem halloc malloc schedule (h, StemWord <$> words)
  = Some c ->
  (forall a block, hglobal h !! a = Some block ->
     hglobal (fst c) !! a = Some block)
  /\ (forall z, z ∈ stemmers h -> z ∈ stemmers (fst c)).
Proof.
  intros Hrun.
  destruct (interleave_StemWord native_stem halloc malloc schedule h words)
    as (h' & phases' & pool' & Hrun' & _ & Hacc & _).
  rewrite Hrun in Hrun'. injection Hrun' as ->. simpl.
  destruct Hacc as (Hfree_b & Hfree_c & Hnew_b & Hnew_c). split.
  - intros a block Ha. rewrite Hfree_b; [done|].
    intros Hheld. apply (Hnew_b a Hheld). by eapply elem_of_dom_2.
  - intros z Hz. apply Hfree_c; [|done].
    intros Hheld. by apply (Hnew_c z Hheld).
Qed.

(** The theorem at work: three calls half way through, over a memory in
    which a block and a context were live. *)
Lemma StemWord_interleaving_frame_witness :
  exists c,
    interleave Porter.stem lowest_free lowest_free
      [2; 0; 1; 0; 2; 0; 1; 1]%nat
      (Heap {[ 1 := bytes "busy" ]} {[ 1 ]},
       StemWord <$> [Some "feed"; None; Some "agreed"]%string)
    = Some c
    /\ (forall a block,
          hglobal (Heap {[ 1 := bytes "busy" ]} {[ 1 ]}) !! a = Some block ->
          hglobal (fst c) !! a = Some block)
    /\ (forall z, z ∈ stemmers (Heap {[ 1 := bytes "busy" ]} {[ 1 ]}) ->
          z ∈ stemmers (fst c)).
Proof.
  eexists. split; [vm_compute; reflexivity|].
  apply (StemWord_interleaving_frame Porter.stem lowest_free lowest_free
           [2; 0; 1; 0; 2; 0; 1; 1]%nat
           (Heap {[ 1 := bytes "busy" ]} {[ 1 ]})
           [Some "feed"; None; Some "agreed"]%string).
  vm_compute; reflexivity.
Defined.

(** X10. Calls in progress leak nothing: once every thread has had its
    five turns, under whatever schedule, the memory is exactly what it was
    when the pool started. *)
Theorem StemWord_interleaving_no_leak
    (native_stem : list byte -> Z -> list byte * Z)
    (halloc malloc : allocator) (schedule : list nat) (h : heap)
    (words : list (option string)) (c : heap * list (prog string)) :
  interleave native_stem halloc malloc schedule (h, StemWord <$> words)
  = Some c ->
  (forall i, (i < length words)%nat ->
     (5 <= count_occ Nat.eq_dec schedule i)%nat) ->
  fst c = h.
Proof.
  intros Hrun Hturns.
  destruct (interleave_StemWord native_stem halloc malloc schedule h words)
    as (h' & phases' & pool' & Hrun' & Hok & Hacc & Hprog).
  rewrite Hrun in Hrun'. injection Hrun' as ->. simpl.
  destruct Hok as (Hlp & _).
  assert (Hdone : forall i ph, phases' !! i = Some ph ->
            exists p z, ph = Exited p z).
  { intros i ph Hph.
    assert (Hi : (i < length words)%nat).
    { rewrite <- Hlp. by eapply lookup_lt_Some. }
    specialize (Hprog i Hi). specialize (Hturns i Hi).
    unfold progress in Hprog. rewrite Hph in Hprog.
    destruct ph; cbn [rank] in Hprog; try lia. by eexists _, _. }
  destruct Hacc as (Hfree_b & Hfree_c & _ & _).
  destruct h as [m st], h' as [m' st']; simpl in *. f_equal.
  - apply map_eq. intros a. apply Hfree_b.
    intros (i & ph & Hph & Hown).
    destruct (Hdone i ph Hph) as (p & z & ->). by destruct Hown.
  - apply set_eq. intros a. apply Hfree_c.
    intros (i & ph & Hph & Hown).
    by destruct (Hdone i ph Hph) as (p & z & ->).
Qed.

(** The theorem at work: three calls interleaved to their ends over a
    memory in which a block and a context were live. *)
Lemma StemWord_interleaving_no_leak_witness :
  exists c,
    interleave Porter.stem lowest_free lowest_free
      [2; 0; 1; 0; 2; 0; 1; 1; 2; 2; 0; 1; 0; 2; 1]%nat
      (Heap {[ 1 := bytes "busy" ]} {[ 1 ]},
       StemWord <$> [Some "feed"; None; Some "agreed"]%string)
    = Some c
    /\ fst c = Heap {[ 1 := bytes "busy" ]} {[ 1 ]}.
Proof.
  eexists. split; [vm_compute; reflexivity|].
  apply (StemWord_interleaving_no_leak Porter.stem lowest_free lowest_free
           [2; 0; 1; 0; 2; 0; 1; 1; 2; 2; 0; 1; 0; 2; 1]%nat
           (Heap {[ 1 := bytes "busy" ]} {[ 1 ]})
           [Some "feed"; None; Some "agreed"]%string).
  - vm_compute; reflexivity.
  - intros i Hi. simpl in Hi.
    destruct i as [|[|[|i]]]; [vm_compute; lia..|lia].
Defined.
